(** * imgdir2pdf: a shallow embedding of [imgdir2pdf.go]

    The program lists the image files of a directory, orders them by a
    numeric-aware sort key, and writes one PDF page per image.  This file
    embeds the program's functions in Gallina and proves (or refutes) the
    properties its specification states about them.

    Conventions.
    - A Go [string] is a sequence of bytes: [gostring := list ascii].
    - A [uint64] is an [N] with the wrap-around modulo [2^64] written out.
    - A [float64] is a primitive binary64 float ([PrimFloat.float]); the
      page-size function is also read over the real numbers, where the
      specification speaks of real sizes.
    - A Go [panic] is the [Panicked] outcome of the [Run] monad; the effects
      that happened before it stay in the world it leaves. *)

From Stdlib Require Import Ascii String.
From Stdlib Require Import List NArith ZArith Bool Lia.
From Stdlib Require Import Permutation Sorted.
From Stdlib Require Import Floats Reals Lra.
Import ListNotations.

Set Implicit Arguments.
#[local] Open Scope list_scope.

(* ================================================================= *)
(** ** Go strings and bytes *)

Definition gostring : Type := list ascii.

(** A string literal of the source, as its bytes. *)
Definition str (s : string) : gostring := list_ascii_of_string s.

(** The numeric value of a byte, the one Go compares bytes by. *)
Definition byte_val (c : ascii) : N := N_of_ascii c.

(** Go's [==] on strings. *)
Fixpoint str_eqb (a b : gostring) : bool :=
  match a, b with
  | [], [] => true
  | x :: a', y :: b' => (byte_val x =? byte_val y)%N && str_eqb a' b'
  | _, _ => false
  end.

(** Go's [<] on strings: lexicographic on the bytes, a proper prefix first. *)
Fixpoint str_ltb (a b : gostring) : bool :=
  match a, b with
  | _, [] => false
  | [], _ :: _ => true
  | x :: a', y :: b' =>
      (byte_val x <? byte_val y)%N
      || ((byte_val x =? byte_val y)%N && str_ltb a' b')
  end.

(** [strings.HasSuffix(s, suffix)]:
    [len(s) >= len(suffix) && s[len(s)-len(suffix):] == suffix]. *)
Definition HasSuffix (s suffix : gostring) : bool :=
  (length suffix <=? length s)%nat
  && str_eqb (skipn (length s - length suffix) s) suffix.

(** [strings.HasPrefix(s, prefix)]. *)
Definition HasPrefix (s prefix : gostring) : bool :=
  (length prefix <=? length s)%nat
  && str_eqb (firstn (length prefix) s) prefix.

(** [strings.Join(elems, sep)]. *)
Fixpoint strings_Join (elems : list gostring) (sep : gostring) : gostring :=
  match elems with
  | [] => []
  | [e] => e
  | e :: rest => e ++ sep ++ strings_Join rest sep
  end.

(** The byte constants the source names. *)
Definition ch_slash : ascii := "/"%char.
Definition ch_dot : ascii := "."%char.
Definition ch_0 : ascii := "0"%char.
Definition ch_9 : ascii := "9"%char.

Definition isSlash (c : ascii) : bool := (byte_val c =? byte_val ch_slash)%N.
Definition isDot (c : ascii) : bool := (byte_val c =? byte_val ch_dot)%N.

(* ================================================================= *)
(** ** [strconv.ParseUint(s, 10, 64)] and [binary.BigEndian.PutUint64] *)

Definition two64 : N := 2 ^ 64.
Definition maxUint64 : N := two64 - 1.

Inductive NumError : Type := ErrSyntax | ErrRange.

(** The loop of [ParseUint] for base 10 and bit size 64.  [n] is the
    [uint64] accumulator; [cutoff = maxUint64/10 + 1] is the least number
    whose tenfold overflows; the sum [n*10 + d] wraps around, which the test
    [n1 < n] detects. *)
Fixpoint parseUintLoop (s : gostring) (n : N) : N + NumError :=
  match s with
  | [] => inl n
  | c :: s' =>
      if (byte_val ch_0 <=? byte_val c)%N && (byte_val c <=? byte_val ch_9)%N then
        let d := (byte_val c - byte_val ch_0)%N in
        if (maxUint64 / 10 + 1 <=? n)%N then inr ErrRange
        else
          let n10 := (n * 10)%N in
          let n1 := ((n10 + d) mod two64)%N in
          if (n1 <? n10)%N || (maxUint64 <? n1)%N then inr ErrRange
          else parseUintLoop s' n1
      else inr ErrSyntax
  end.

Definition ParseUint (s : gostring) : N + NumError :=
  match s with
  | [] => inr ErrSyntax
  | _ => parseUintLoop s 0%N
  end.

(** [byte(v >> k)]: the low eight bits. *)
Definition byte_of (v : N) : ascii := ascii_of_N (N.land v 255).

(** [binary.BigEndian.PutUint64(b, v)] on an 8-byte slice: the whole of [b]
    is overwritten, most significant byte first. *)
Definition PutUint64 (v : N) : gostring :=
  [ byte_of (N.shiftr v 56); byte_of (N.shiftr v 48);
    byte_of (N.shiftr v 40); byte_of (N.shiftr v 32);
    byte_of (N.shiftr v 24); byte_of (N.shiftr v 16);
    byte_of (N.shiftr v 8);  byte_of v ].

(** [make([]byte, 64/8)]: eight zero bytes. *)
Definition zeroKey : gostring := repeat Ascii.zero 8.

(* ================================================================= *)
(** ** [filepath.Ext] *)

(** [filepath.Ext(path)] scans [path] from its end, stops at a separator,
    and returns the suffix that starts at the first dot it meets.  [r] is
    the part of the path still to scan, reversed; [acc] is what was scanned. *)
Fixpoint extScan (r : list ascii) (acc : gostring) : gostring :=
  match r with
  | [] => []
  | c :: r' =>
      if isSlash c then []
      else if isDot c then c :: acc
      else extScan r' (c :: acc)
  end.

Definition filepath_Ext (path : gostring) : gostring := extScan (rev path) [].

(* ================================================================= *)
(** ** [sortName]: the natural-sort key *)

(** The loop condition of [sortName]: ['0' > name[i] || name[i] > '9']. *)
Definition notDigit (c : ascii) : bool :=
  (byte_val c <? byte_val ch_0)%N || (byte_val ch_9 <? byte_val c)%N.

(** The number of steps the backwards loop of [sortName] takes before it
    breaks; [r] is [name] reversed. *)
Fixpoint digitRun (r : list ascii) : nat :=
  match r with
  | [] => 0
  | c :: r' => if notDigit c then 0 else S (digitRun r')
  end.

(** The index [i] after the loop and the [i++] that follows it. *)
Definition digitStart (name : gostring) : nat :=
  length name - digitRun (rev name).

(** The 8-byte block [b64] of [sortName]. *)
Definition suffixKey (s64 : gostring) : gostring :=
  match s64 with
  | [] => zeroKey
  | _ =>
      match ParseUint s64 with
      | inl u64 => PutUint64 ((u64 + 1) mod two64)
      | inr _ => zeroKey
      end
  end.

Definition sortName (filename : gostring) : gostring :=
  let ext := filepath_Ext filename in
  let name := firstn (length filename - length ext) filename in
  let i := digitStart name in
  let s64 := skipn i name in
  firstn i name ++ suffixKey s64 ++ ext.

(* ================================================================= *)
(** ** [sort.Slice]

    [sort.Slice(x, less)] belongs to Go's library: it sorts [x] by [less]
    and promises no stability.  Short slices it sorts by straight insertion,
    which is the function below; [sortSlice_perm] and [sortSlice_sorted]
    state what every implementation guarantees, and where the keys differ
    pairwise the result is the only sorted arrangement
    ([keyOrdered_unique]). *)

Fixpoint insertLess (A : Type) (less : A -> A -> bool) (x : A) (l : list A)
  : list A :=
  match l with
  | [] => [x]
  | y :: l' => if less x y then x :: y :: l' else y :: insertLess less x l'
  end.

Definition sortSlice (A : Type) (less : A -> A -> bool) (l : list A) : list A :=
  fold_left (fun sorted x => insertLess less x sorted) l [].

(** The comparator [lsdir] passes: [sortName(result[i]) < sortName(result[j])]. *)
Definition lessByName (a b : gostring) : bool :=
  str_ltb (sortName a) (sortName b).

(* ================================================================= *)
(** ** [path/filepath] on a Unix system

    [Base], [Clean], [Join], [IsAbs] and [Abs] are library functions; they
    are written here after their documented rules, on the path's elements. *)

(** The elements of a path: the pieces between its slashes. *)
Fixpoint splitSlash (s : gostring) : list gostring :=
  match s with
  | [] => [[]]
  | c :: s' =>
      if isSlash c then [] :: splitSlash s'
      else
        match splitSlash s' with
        | e :: es => (c :: e) :: es
        | [] => [[c]]
        end
  end.

(** One element read by [Clean]; [stack] holds the elements kept so far,
    the last one first.  Empty and [.] elements are dropped; [..] removes
    the element before it, is dropped at the root, and is kept at the start
    of a path that is not rooted. *)
Definition cleanStep (rooted : bool) (stack : list gostring) (e : gostring)
  : list gostring :=
  if str_eqb e [] || str_eqb e (str ".") then stack
  else if str_eqb e (str "..") then
    match stack with
    | top :: below => if str_eqb top (str "..") then e :: stack else below
    | [] => if rooted then [] else [e]
    end
  else e :: stack.

Definition cleanElems (rooted : bool) (path : gostring) : list gostring :=
  rev (fold_left (cleanStep rooted) (splitSlash path) []).

Definition filepath_Clean (path : gostring) : gostring :=
  match path with
  | [] => str "."
  | c :: _ =>
      let rooted := isSlash c in
      let elems := cleanElems rooted path in
      if rooted then ch_slash :: strings_Join elems [ch_slash]
      else
        match elems with
        | [] => str "."
        | _ => strings_Join elems [ch_slash]
        end
  end.

(** [filepath.Join(elem...)]: the elements from the first non-empty one on,
    joined by slashes and cleaned; the empty string when all are empty. *)
Fixpoint filepath_Join (elem : list gostring) : gostring :=
  match elem with
  | [] => []
  | [] :: rest => filepath_Join rest
  | _ :: _ => filepath_Clean (strings_Join elem [ch_slash])
  end.

Definition filepath_IsAbs (path : gostring) : bool :=
  HasPrefix path [ch_slash].

(** Trailing slashes removed; [r] is the path reversed. *)
Fixpoint dropSlashes (r : list ascii) : list ascii :=
  match r with
  | [] => []
  | c :: r' => if isSlash c then dropSlashes r' else r
  end.

(** The bytes after the last slash; [r] is the path reversed. *)
Fixpoint lastElemScan (r : list ascii) (acc : gostring) : gostring :=
  match r with
  | [] => acc
  | c :: r' => if isSlash c then acc else lastElemScan r' (c :: acc)
  end.

(** [filepath.Base(path)]: the last element of the path, ["."] for the
    empty path and ["/"] for a path of slashes only. *)
Definition filepath_Base (path : gostring) : gostring :=
  match path with
  | [] => str "."
  | _ =>
      match lastElemScan (dropSlashes (rev path)) [] with
      | [] => [ch_slash]
      | e => e
      end
  end.

(** [path.Ext] reads the path as [filepath.Ext] does. *)
Definition path_Ext (path : gostring) : gostring := extScan (rev path) [].

(* ================================================================= *)
(** ** Page-size fitting: [optimalPageSize] *)

Section PageFit.

(** The numbers the function computes with, and their division and product. *)
Variable num : Type.
Variable ndiv nmul : num -> num -> num.

Definition optimalPageSizeOver (templateW templateH givenW givenH : num)
  : num * num :=
  let scaler := ndiv templateW givenW in
  (templateW, nmul scaler givenH).

End PageFit.

(** The function the program runs: [float64] arithmetic. *)
Definition optimalPageSize : float -> float -> float -> float -> float * float :=
  optimalPageSizeOver PrimFloat.div PrimFloat.mul.

(** The same function read over the real numbers, every operation exact. *)
Definition optimalPageSizeR : R -> R -> R -> R -> R * R :=
  optimalPageSizeOver Rdiv Rmult.

Definition a4Width : float := 210%float.
Definition a4Height : float := 297%float.

(** [float64(n)] for a Go [int]: the nearest binary64 number, ties to even. *)
Definition float64_of_int (n : Z) : float :=
  SF2Prim (binary_normalize prec emax n 0 false).

(* ================================================================= *)
(** ** The world the program acts on *)

(** An [error] value, by its message. *)
Definition GoError : Type := gostring.

(** What [ioutil.ReadDir] tells about one entry. *)
Record FileInfo : Type := { Name : gostring; IsDir : bool }.

(** [gofpdf.SizeType]. *)
Record SizeType : Type := { Wd : float; Ht : float }.

(** An image placed on a page by [ImageOptions]. *)
Record PlacedImage : Type :=
  { imgFile : gostring; imgX : float; imgY : float; imgW : float; imgH : float;
    imgType : gostring }.

Record Page : Type := { pageSize : SizeType; pageImages : list PlacedImage }.

(** A [gofpdf.Fpdf] document, as far as the program drives it: the sticky
    error [err] of the library (once set, later calls do nothing), the size
    it was created with, and its pages in the order they were added. *)
Record Fpdf : Type :=
  { fpdfErr : option GoError; initSize : SizeType; pages : list Page }.

(** The heap of documents ([*gofpdf.Fpdf] is an index into it), the files
    written, and what was printed on standard output. *)
Record World : Type :=
  { docs : list Fpdf; files : list (gostring * Fpdf); stdout : list gostring }.

Definition initWorld : World := {| docs := []; files := []; stdout := [] |}.

(** What the program reads from its surroundings: the file system, the
    image headers, the library's image parsers. *)
Record Env : Type :=
  { os_ReadDir : gostring -> list FileInfo + GoError;
    os_Getwd : gostring + GoError;
    os_Open : gostring -> option GoError;
    image_DecodeConfig : gostring -> (Z * Z) + GoError;
    strings_ToUpper : gostring -> gostring;
    gofpdf_registerImage : gostring -> gostring -> option GoError;
    os_Create : gostring -> option GoError }.

(** The value a [panic] carries. *)
Inductive PanicValue : Type :=
| PanicError (e : GoError)
| PanicString (msg : gostring)
| PanicSliceBounds
| PanicNilPointer.

Inductive Outcome (A : Type) : Type :=
| Returned (a : A)
| Panicked (p : PanicValue).

Arguments Returned {A} a.
Arguments Panicked {A} p.

(** A computation: it ends by returning or by panicking, and leaves a world. *)
Definition Run (A : Type) : Type := World -> Outcome A * World.

Definition ret (A : Type) (a : A) : Run A := fun w => (Returned a, w).

Definition bind (A B : Type) (m : Run A) (k : A -> Run B) : Run B :=
  fun w =>
    match m w with
    | (Returned a, w') => k a w'
    | (Panicked p, w') => (Panicked p, w')
    end.

Definition panic (A : Type) (p : PanicValue) : Run A := fun w => (Panicked p, w).

Arguments panic {A} p.

Notation "x <- m ;; k" := (bind m (fun x => k))
  (at level 61, m at next level, right associativity).
Notation "m ;;; k" := (bind m (fun _ => k))
  (at level 61, right associativity).

(** [for _, elem := range l { body(elem) }]. *)
Fixpoint forRange (A : Type) (l : list A) (body : A -> Run unit) : Run unit :=
  match l with
  | [] => ret tt
  | x :: l' => body x ;;; forRange l' body
  end.

(** [for i, elem := range l { l[i], err = f(elem); if err != nil { panic(err) } }]. *)
Fixpoint mapOrPanic (A B : Type) (f : A -> B + GoError) (l : list A)
  : Run (list B) :=
  match l with
  | [] => ret []
  | x :: l' =>
      match f x with
      | inl y => ys <- mapOrPanic f l' ;; ret (y :: ys)
      | inr e => panic (PanicError e)
      end
  end.

(** Writing [s] to standard output. *)
Definition printOut (s : gostring) : Run unit :=
  fun w => (Returned tt,
            {| docs := docs w; files := files w; stdout := stdout w ++ [s] |}).

(* ----------------------------------------------------------------- *)
(** *** The [gofpdf] calls of the program *)

Fixpoint replaceNth (A : Type) (n : nat) (x : A) (l : list A) : list A :=
  match l, n with
  | [], _ => []
  | _ :: l', O => x :: l'
  | y :: l', S n' => y :: replaceNth n' x l'
  end.

(** A method call on the document [p] points to. *)
Definition onDoc (p : nat) (f : Fpdf -> Fpdf) : Run unit :=
  fun w =>
    match nth_error (docs w) p with
    | Some d =>
        (Returned tt,
         {| docs := replaceNth p (f d) (docs w); files := files w;
            stdout := stdout w |})
    | None => (Panicked PanicNilPointer, w)
    end.

(** [gofpdf.NewCustom]: a new document on the heap, without pages. *)
Definition NewCustom (size : SizeType) : Run nat :=
  fun w =>
    (Returned (length (docs w)),
     {| docs := docs w ++ [ {| fpdfErr := None; initSize := size; pages := [] |} ];
        files := files w; stdout := stdout w |}).

(** [AddPageFormat("P", size)]: one more page of that size. *)
Definition AddPageFormat (size : SizeType) (f : Fpdf) : Fpdf :=
  match fpdfErr f with
  | Some _ => f
  | None =>
      {| fpdfErr := None; initSize := initSize f;
         pages := pages f ++ [ {| pageSize := size; pageImages := [] |} ] |}
  end.

Fixpoint placeOnLast (img : PlacedImage) (ps : list Page) : list Page :=
  match ps with
  | [] => []
  | [p] => [ {| pageSize := pageSize p; pageImages := pageImages p ++ [img] |} ]
  | p :: ps' => p :: placeOnLast img ps'
  end.

(** [ImageOptions(file, x, y, w, h, false, {ImageType, ReadDpi}, 0, "")]: the
    library registers the image (which may fail and set the document's
    error) and draws it on the current page, the last one. *)
Definition ImageOptions (env : Env) (file : gostring) (x y w h : float)
  (imageType : gostring) (f : Fpdf) : Fpdf :=
  match fpdfErr f with
  | Some _ => f
  | None =>
      match gofpdf_registerImage env file imageType with
      | Some e => {| fpdfErr := Some e; initSize := initSize f; pages := pages f |}
      | None =>
          {| fpdfErr := None; initSize := initSize f;
             pages := placeOnLast
                        {| imgFile := file; imgX := x; imgY := y; imgW := w;
                           imgH := h; imgType := imageType |} (pages f) |}
      end
  end.

(** [OutputFileAndClose(fileStr)]: nothing is written when the document
    carries an error or the file cannot be created; the error is returned. *)
Definition OutputFileAndClose (env : Env) (p : nat) (fileStr : gostring)
  : Run (option GoError) :=
  fun w =>
    match nth_error (docs w) p with
    | None => (Panicked PanicNilPointer, w)
    | Some d =>
        match fpdfErr d with
        | Some e => (Returned (Some e), w)
        | None =>
            match os_Create env fileStr with
            | Some e =>
                (Returned (Some e),
                 {| docs := replaceNth p
                              {| fpdfErr := Some e; initSize := initSize d;
                                 pages := pages d |} (docs w);
                    files := files w; stdout := stdout w |})
            | None =>
                (Returned None,
                 {| docs := docs w; files := files w ++ [(fileStr, d)];
                    stdout := stdout w |})
            end
        end
    end.

(* ================================================================= *)
(** ** The program *)

Definition nl : gostring := [ascii_of_nat 10].

Definition helpString : gostring :=
  nl ++ str "usage: imgdir2pdf DIR" ++ nl
  ++ str "Convert all images in given directory to single pdf." ++ nl
  ++ str "Order is defined by sorting their names." ++ nl
  ++ nl ++ str "Supported files: png, jpg, jpeg, gif (first frame only)" ++ nl
  ++ str "Resulting PDF matches DIR's base name and is saved in DIR." ++ nl.

Definition imageFormats : list gostring :=
  [str "png"; str "jpg"; str "jpeg"; str "gif"].

(** [fmt.Println(helpString)]. *)
Definition printHelp : Run unit := printOut (helpString ++ nl).

(** Check if any of [other] conform to property [f] with [target]. *)
Fixpoint any (target : gostring) (other : list gostring)
  (f : gostring -> gostring -> bool) : bool :=
  match other with
  | [] => false
  | e :: other' => if f target e then true else any target other' f
  end.

(** The first loop of [lsdir]: the names of the entries that are no
    directories and end with one of [fileExtension]. *)
Fixpoint selectFiles (files : list FileInfo) (fileExtension : list gostring)
  : list gostring :=
  match files with
  | [] => []
  | elem :: files' =>
      let curfile := Name elem in
      if negb (IsDir elem) && any curfile fileExtension HasSuffix
      then Name elem :: selectFiles files' fileExtension
      else selectFiles files' fileExtension
  end.

Section Program.

Variable env : Env.

(** [filepath.Abs]: a rooted path is cleaned; any other is joined to the
    working directory, which the system may fail to tell. *)
Definition filepath_Abs (path : gostring) : gostring + GoError :=
  if filepath_IsAbs path then inl (filepath_Clean path)
  else
    match os_Getwd env with
    | inl wd => inl (filepath_Join [wd; path])
    | inr err => inr err
    end.

(** Get list of all files with extensions from [fileExtension] in
    [dirpath].  Resulting paths are absolute. *)
Definition lsdir (dirpath : gostring) (fileExtension : list gostring)
  : Run (list gostring) :=
  match os_ReadDir env dirpath with
  | inr err => panic (PanicError err)
  | inl files =>
      let result := selectFiles files fileExtension in
      let result := sortSlice lessByName result in
      mapOrPanic (fun elem => filepath_Abs (filepath_Join [dirpath; elem]))
        result
  end.

(** Get dimensions of given image. *)
Definition getImageSize (imagepath : gostring) : Run (float * float) :=
  match os_Open env imagepath with
  | Some err => panic (PanicError err)
  | None =>
      match image_DecodeConfig env imagepath with
      | inr err => panic (PanicError err)
      | inl (width, height) =>
          ret (float64_of_int width, float64_of_int height)
      end
  end.

(** Add image to pdf.  [path.Ext(imagepath)[1:]] panics on an empty
    extension. *)
Definition addImagePage (document : nat) (imagepath : gostring) : Run unit :=
  size <- getImageSize imagepath ;;
  let (imageW, imageH) := size in
  let (resW, resH) := optimalPageSize a4Width a4Height imageW imageH in
  match path_Ext imagepath with
  | [] => panic PanicSliceBounds
  | _ :: ext1 =>
      let ext := strings_ToUpper env ext1 in
      onDoc document (AddPageFormat {| Wd := resW; Ht := resH |}) ;;;
      onDoc document (ImageOptions env imagepath 0 0 resW resH ext)
  end.

(** Initialize new pdf file with custom size in mm. *)
Definition createDocument (size : float * float) : Run nat :=
  let (w, h) := size in NewCustom {| Wd := w; Ht := h |}.

(** Add images from paths into single pdf. *)
Definition processImages (paths : list gostring) (saveAs : gostring)
  : Run unit :=
  match paths with
  | [] => panic (PanicString (str "No suitable files in given directory."))
  | first :: _ =>
      size <- getImageSize first ;;
      let (firstW, firstH) := size in
      pdf <- createDocument (optimalPageSize a4Width a4Height firstW firstH) ;;
      forRange paths (fun elem => addImagePage pdf elem) ;;;
      err <- OutputFileAndClose env pdf saveAs ;;
      match err with
      | Some e => (* fmt.Printf("Error writing pdf: %v", err) *)
          printOut (str "Error writing pdf: " ++ e)
      | None => ret tt
      end
  end.

(** Construct absolute path of resulting pdf as base folder of [basepath]. *)
Definition getOutFilename (basepath : gostring) : Run gostring :=
  match filepath_Abs basepath with
  | inr err => panic (PanicError err)
  | inl resultPath =>
      let basename := filepath_Base resultPath in
      ret (filepath_Join [resultPath; basename ++ str ".pdf"])
  end.

(** Main logic of program; [args] is [os.Args]. *)
Definition main (args : list gostring) : Run unit :=
  match args with
  | [] | [_] => printHelp
  | _ :: dir :: _ =>
      paths <- lsdir dir imageFormats ;;
      saveAs <- getOutFilename dir ;;
      processImages paths saveAs
  end.

End Program.

(* ================================================================= *)
(** ** The specification's words, for comparison with the code *)

(** The natural-sort key as the specification describes it: split the file
    name at its last dot, split the stem before its trailing decimal digits,
    and put an 8-byte big-endian number between the two. *)

(** [(stem, extension)], split at the last ['.']; no dot, no extension. *)
Fixpoint splitLastDot (s : gostring) : gostring * gostring :=
  match s with
  | [] => ([], [])
  | c :: s' =>
      match splitLastDot s' with
      | (stem, []) => if isDot c then ([], c :: s') else (c :: stem, [])
      | (stem, ext) => (c :: stem, ext)
      end
  end.

Definition isDigit (c : ascii) : bool :=
  (byte_val ch_0 <=? byte_val c)%N && (byte_val c <=? byte_val ch_9)%N.

(** [(prefix, digits)]: [digits] is the maximal trailing run of decimal
    digits of the stem. *)
Fixpoint splitTrailingDigits (s : gostring) : gostring * gostring :=
  match s with
  | [] => ([], [])
  | c :: s' =>
      match splitTrailingDigits s' with
      | ([], digits) => if isDigit c then ([], c :: digits) else ([c], digits)
      | (prefix, digits) => (c :: prefix, digits)
      end
  end.

(** The unsigned integer a run of decimal digits denotes. *)
Definition decValue (digits : gostring) : N :=
  fold_left (fun acc c => (acc * 10 + (byte_val c - byte_val ch_0))%N) digits 0%N.

(** The number a byte sequence denotes, most significant byte first. *)
Definition beValue (bytes : gostring) : N :=
  fold_left (fun acc c => (acc * 256 + byte_val c)%N) bytes 0%N.

Definition specStem (filename : gostring) : gostring :=
  fst (splitLastDot filename).
Definition specExt (filename : gostring) : gostring :=
  snd (splitLastDot filename).
Definition specPrefix (filename : gostring) : gostring :=
  fst (splitTrailingDigits (specStem filename)).
Definition specDigits (filename : gostring) : gostring :=
  snd (splitTrailingDigits (specStem filename)).

(** The number the specification puts into the key: the value of the digit
    run plus one, or zero when there is no digit run. *)
Definition specNumber (digits : gostring) : N :=
  match digits with
  | [] => 0%N
  | _ => (decValue digits + 1)%N
  end.

(** [key] is the key the specification describes for [filename]. *)
Definition sortKeySpec (filename key : gostring) : Prop :=
  exists block : gostring,
    key = specPrefix filename ++ block ++ specExt filename
    /\ length block = 8
    /\ beValue block = specNumber (specDigits filename).

(** The extensions the specification lists, with their dots. *)
Definition dottedFormats : list gostring :=
  [str ".png"; str ".jpg"; str ".jpeg"; str ".gif"].

(** A rooted path, from its elements. *)
Definition rootedPath (elems : list gostring) : gostring :=
  ch_slash :: strings_Join elems [ch_slash].

(** A string without a slash, as the name of a directory entry is. *)
Definition noSlash (s : gostring) : bool :=
  forallb (fun c => negb (isSlash c)) s.

Definition noDot (s : gostring) : bool :=
  forallb (fun c => negb (isDot c)) s.

(** An element of a clean path: not empty, not [.] or [..], without slash. *)
Definition properElem (e : gostring) : bool :=
  negb (str_eqb e []) && negb (str_eqb e (str "."))
  && negb (str_eqb e (str "..")) && noSlash e.

(** The last element of a path given by its elements; empty at the root. *)
Definition lastElem (elems : list gostring) : gostring := last elems [].

(** [a] may stand before [b] in a slice sorted by [less]. *)
Definition notAfter (A : Type) (less : A -> A -> bool) (a b : A) : Prop :=
  less b a = false.

(** A list is in natural-sort order: no file's key is less than the key of
    the file before it. *)
Definition keyOrdered (l : list gostring) : Prop :=
  Sorted (notAfter lessByName) l.



(** The panic of [processImages] on an empty list. *)
Definition emptyInputPanic : PanicValue :=
  PanicString (str "No suitable files in given directory.").

(* ================================================================= *)
(** ** Concrete surroundings for the examples *)

(** A directory with the entries [entries]: the working directory is
    [/x/y], every file opens as a 100 x 200 image and every write succeeds. *)
Definition demoEnv (entries : list FileInfo) : Env :=
  {| os_ReadDir := fun _ => inl entries;
     os_Getwd := inl (str "/x/y");
     os_Open := fun _ => None;
     image_DecodeConfig := fun _ => inl (100%Z, 200%Z);
     strings_ToUpper := fun s => s;
     gofpdf_registerImage := fun _ _ => None;
     os_Create := fun _ => None |}.

Definition regularFile (name : string) : FileInfo :=
  {| Name := str name; IsDir := false |}.

Definition amtNames : list gostring :=
  map str ["amt100.png"; "amt2.png"; "amt.png"; "amt0.png"; "amt10.png";
           "amt099.png"]%string.

Definition amtSorted : list gostring :=
  map str ["amt.png"; "amt0.png"; "amt2.png"; "amt10.png"; "amt099.png";
           "amt100.png"]%string.

(** A name whose numeric suffix is [2^64], one whose suffix is [2^64 - 1],
    the largest [uint64], and the latter with another extension. *)
Definition overflowName : gostring := str "a18446744073709551616.png".
Definition maxName : gostring := str "a18446744073709551615.png".
Definition maxNameJpg : gostring := str "a18446744073709551615.jpg".

(* ================================================================= *)
(** ** Notions for the further properties *)

(** The page [addImagePage] adds for an image: its size is the fitted size
    of the image's header dimensions, and the image is drawn from the
    origin over the whole page.  There is none when the header cannot be
    decoded or the path has no extension. *)
Definition fittedPage (env : Env) (imagepath : gostring) : option Page :=
  match image_DecodeConfig env imagepath, path_Ext imagepath with
  | inl (width, height), _ :: ext1 =>
      let (resW, resH) :=
        optimalPageSize a4Width a4Height
          (float64_of_int width) (float64_of_int height) in
      Some {| pageSize := {| Wd := resW; Ht := resH |};
              pageImages :=
                [ {| imgFile := imagepath; imgX := 0; imgY := 0;
                     imgW := resW; imgH := resH;
                     imgType := strings_ToUpper env ext1 |} ] |}
  | _, _ => None
  end.


(** An image the run can add to the document: the file opens, its header
    decodes, its path has an extension, and the library accepts it. *)
Definition addable (env : Env) (imagepath : gostring) : Prop :=
  os_Open env imagepath = None
  /\ (exists cfg, image_DecodeConfig env imagepath = inl cfg)
  /\ exists c ext1,
       path_Ext imagepath = c :: ext1
       /\ gofpdf_registerImage env imagepath (strings_ToUpper env ext1) = None.

(** An image on which [addImagePage] panics: the file does not open, its
    header does not decode, or its path has no extension. *)
Definition unusable (env : Env) (imagepath : gostring) : Prop :=
  (exists e, os_Open env imagepath = Some e)
  \/ (exists e, image_DecodeConfig env imagepath = inr e)
  \/ path_Ext imagepath = [].

(** The working directory, when the system tells it, is a rooted path. *)
Definition rootedWd (env : Env) : Prop :=
  forall wd, os_Getwd env = inl wd -> filepath_IsAbs wd = true.

(** The names [ReadDir] reports are names of directory entries: not
    empty, not [.] or [..], without slash. *)
Definition properEntries (env : Env) : Prop :=
  forall dir entries,
    os_ReadDir env dir = inl entries ->
    Forall (fun elem => properElem (Name elem) = true) entries.

(** An element [Clean] may keep in a path that is not rooted: a proper
    one, or [..]. *)
Definition keptElem (e : gostring) : bool :=
  properElem e || str_eqb e (str "..").

(* ================================================================= *)
(** ** Proof tactics *)

(** Case analysis on the two byte comparisons [str_ltb] makes. *)
Ltac byte_cases x y :=
  destruct (N.ltb_spec (byte_val x) (byte_val y));
  destruct (N.eqb_spec (byte_val x) (byte_val y));
  try lia; cbn [orb andb negb] in *.

(* ================================================================= *)
(** * Properties *)

Unset Implicit Arguments.

(* ----------------------------------------------------------------- *)
(** ** Page-size fitting *)

#[local] Open Scope R_scope.

(** The two components of the fitted size, over the reals. *)
Lemma optimalPageSizeR_eq (templateW templateH givenW givenH : R) :
  optimalPageSizeR templateW templateH givenW givenH
  = (templateW, templateW / givenW * givenH).
Proof. reflexivity. Qed.



(** C2, as stated, fails on both images: the fitted heights are not 623.7
    and 148.5. *)
Lemma page_fit_examples_differ :
  optimalPageSizeR 210 297 100 200 <> (210, 623.7)
  /\ optimalPageSizeR 210 297 200 100 <> (210, 148.5).
Proof.
  rewrite !optimalPageSizeR_eq.
  split; intro H; injection H as H; lra.
Qed.

(** C2, amended: for the template (210, 297) the fitter returns exactly
    (210, 420) on the image (100, 200) and exactly (210, 105) on the image
    (200, 100), in binary64 arithmetic as over the reals. *)
Theorem page_fit_examples :
  optimalPageSize 210 297 100 200 = (210%float, 420%float)
  /\ optimalPageSize 210 297 200 100 = (210%float, 105%float)
  /\ optimalPageSizeR 210 297 100 200 = (210, 420)
  /\ optimalPageSizeR 210 297 200 100 = (210, 105).
Proof.
  repeat split; try reflexivity;
    rewrite optimalPageSizeR_eq; f_equal; field.
Qed.



#[local] Close Scope R_scope.

(* ----------------------------------------------------------------- *)
(** ** The order of Go strings *)

Lemma byte_val_inj (x y : ascii) : byte_val x = byte_val y -> x = y.
Proof.
  unfold byte_val. intro H.
  rewrite <- (ascii_N_embedding x), <- (ascii_N_embedding y), H.
  reflexivity.
Qed.

Lemma byte_val_lt_256 (c : ascii) : (byte_val c < 256)%N.
Proof. apply N_ascii_bounded. Qed.

Lemma str_eqb_eq (a b : gostring) : str_eqb a b = true <-> a = b.
Proof.
  revert b. induction a as [|x a IH]; intros [|y b]; cbn; try easy.
  rewrite andb_true_iff, N.eqb_eq, IH. split.
  - intros [H ->]. now rewrite (byte_val_inj _ _ H).
  - intros [= -> ->]. easy.
Qed.

Lemma str_eqb_refl (a : gostring) : str_eqb a a = true.
Proof. now apply str_eqb_eq. Qed.

Lemma str_ltb_irrefl (a : gostring) : str_ltb a a = false.
Proof.
  induction a as [|x a IH]; cbn; [reflexivity|].
  rewrite N.ltb_irrefl, N.eqb_refl. exact IH.
Qed.

Lemma str_ltb_trans (a b c : gostring) :
  str_ltb a b = true -> str_ltb b c = true -> str_ltb a c = true.
Proof.
  revert b c. induction a as [|x a IH]; intros [|y b] [|z c]; cbn; try easy.
  intros Hab Hbc.
  byte_cases x y; byte_cases y z; byte_cases x z; try easy.
  eauto.
Qed.

Lemma str_ltb_asym (a b : gostring) :
  str_ltb a b = true -> str_ltb b a = false.
Proof.
  intro H. destruct (str_ltb b a) eqn:E; [|reflexivity].
  rewrite <- (str_ltb_irrefl a). symmetry. now apply str_ltb_trans with b.
Qed.

(** Two strings neither of which is less than the other are the same. *)
Lemma str_ltb_total (a b : gostring) :
  str_ltb a b = false -> str_ltb b a = false -> a = b.
Proof.
  revert b. induction a as [|x a IH]; intros [|y b]; cbn; try easy.
  intros Hab Hba.
  byte_cases x y; byte_cases y x; try easy.
  f_equal; [now apply byte_val_inj | now apply IH].
Qed.

(** "Not greater" is transitive. *)
Lemma str_leb_trans (a b c : gostring) :
  str_ltb b a = false -> str_ltb c b = false -> str_ltb c a = false.
Proof.
  revert b c. induction a as [|x a IH]; intros [|y b] [|z c]; cbn; try easy.
  intros Hab Hbc.
  byte_cases y x; byte_cases z y; byte_cases z x; try easy.
  eauto.
Qed.

(* ----------------------------------------------------------------- *)
(** ** Sorting *)

Section Sorting.

Variable A : Type.
Variable less : A -> A -> bool.

Hypothesis less_asym : forall a b, less a b = true -> less b a = false.

Lemma insertLess_perm (x : A) (l : list A) :
  Permutation (x :: l) (insertLess less x l).
Proof.
  induction l as [|y l IH]; cbn; [reflexivity|].
  destruct (less x y); [reflexivity|].
  rewrite perm_swap. now apply perm_skip.
Qed.

Lemma sortSlice_acc_perm (l acc : list A) :
  Permutation (l ++ acc)
    (fold_left (fun sorted x => insertLess less x sorted) l acc).
Proof.
  revert acc. induction l as [|x l IH]; intro acc; cbn; [reflexivity|].
  rewrite <- IH. rewrite <- insertLess_perm.
  apply Permutation_middle.
Qed.

(** The sorted slice holds the same elements. *)
Lemma sortSlice_perm (l : list A) : Permutation l (sortSlice less l).
Proof.
  unfold sortSlice. rewrite <- sortSlice_acc_perm. now rewrite app_nil_r.
Qed.

Lemma insertLess_HdRel (x y : A) (l : list A) :
  (notAfter less) y x -> HdRel (notAfter less) y l -> HdRel (notAfter less) y (insertLess less x l).
Proof.
  intros Hyx Hl. destruct l as [|z l]; cbn.
  - now constructor.
  - inversion_clear Hl. destruct (less x z); now constructor.
Qed.

Lemma insertLess_sorted (x : A) (l : list A) :
  Sorted (notAfter less) l -> Sorted (notAfter less) (insertLess less x l).
Proof.
  induction 1 as [|y l Hs IH Hd]; cbn.
  - repeat constructor.
  - destruct (less x y) eqn:E.
    + constructor; [now constructor|]. constructor. now apply less_asym.
    + constructor; [exact IH|]. now apply insertLess_HdRel.
Qed.

Lemma sortSlice_acc_sorted (l acc : list A) :
  Sorted (notAfter less) acc ->
  Sorted (notAfter less) (fold_left (fun sorted x => insertLess less x sorted) l acc).
Proof.
  revert acc. induction l as [|x l IH]; intros acc H; cbn; [exact H|].
  apply IH. now apply insertLess_sorted.
Qed.

(** The sorted slice is in order. *)
Lemma sortSlice_sorted (l : list A) : Sorted (notAfter less) (sortSlice less l).
Proof. apply sortSlice_acc_sorted. constructor. Qed.

(** Where distinct elements never tie, there is one sorted arrangement. *)
Lemma sorted_perm_unique (l1 l2 : list A) :
  (forall a b, In a l1 -> In b l1 -> (notAfter less) a b -> (notAfter less) b a -> a = b) ->
  Permutation l1 l2 ->
  StronglySorted (notAfter less) l1 -> StronglySorted (notAfter less) l2 -> l1 = l2.
Proof.
  revert l2. induction l1 as [|a l1 IH]; intros l2 Hanti Hp H1 H2.
  - now apply Permutation_nil in Hp.
  - destruct l2 as [|b l2].
    + symmetry in Hp. now apply Permutation_nil in Hp.
    + assert (a = b) as <-.
      { assert (Ha : In a (b :: l2))
          by (apply (Permutation_in _ Hp); now left).
        assert (Hb : In b (a :: l1))
          by (apply (Permutation_in _ (Permutation_sym Hp)); now left).
        destruct Ha as [->|Ha]; [reflexivity|].
        destruct Hb as [->|Hb]; [reflexivity|].
        inversion_clear H1 as [|? ? _ F1]. inversion_clear H2 as [|? ? _ F2].
        rewrite Forall_forall in F1, F2.
        apply Hanti; [now left | now right | now apply F1 | now apply F2]. }
      f_equal. apply IH.
      * intros x y Hx Hy. apply Hanti; now right.
      * now apply Permutation_cons_inv in Hp.
      * now inversion H1.
      * now inversion H2.
Qed.

End Sorting.

Lemma lessByName_asym (a b : gostring) :
  lessByName a b = true -> lessByName b a = false.
Proof. apply str_ltb_asym. Qed.

Lemma notAfter_lessByName_trans (a b c : gostring) :
  notAfter lessByName a b -> notAfter lessByName b c -> notAfter lessByName a c.
Proof. unfold notAfter, lessByName. apply str_leb_trans. Qed.

Lemma keyOrdered_strongly (l : list gostring) :
  keyOrdered l -> StronglySorted (notAfter lessByName) l.
Proof.
  apply Sorted_StronglySorted. intros a b c. apply notAfter_lessByName_trans.
Qed.

(** What [sort.Slice] leaves in [lsdir]: the same names, in key order. *)
Lemma sortSlice_lessByName (l : list gostring) :
  Permutation l (sortSlice lessByName l) /\ keyOrdered (sortSlice lessByName l).
Proof.
  split; [apply sortSlice_perm|].
  apply sortSlice_sorted. exact lessByName_asym.
Qed.

(** Files whose keys differ pairwise have one natural-sort order. *)
Lemma keyOrdered_unique (l l1 l2 : list gostring) :
  NoDup (map sortName l) ->
  Permutation l l1 -> keyOrdered l1 ->
  Permutation l l2 -> keyOrdered l2 -> l1 = l2.
Proof.
  intros Hnd Hp1 Hs1 Hp2 Hs2.
  apply (sorted_perm_unique gostring lessByName).
  - intros a b Ha Hb Hab Hba.
    assert (Hk : sortName a = sortName b)
      by (apply str_ltb_total; [exact Hba | exact Hab]).
    apply (Permutation_in _ (Permutation_sym Hp1)) in Ha, Hb.
    clear - Hnd Ha Hb Hk. induction l as [|x l IH]; [easy|].
    cbn in Hnd. inversion_clear Hnd as [|? ? Hx Hl].
    destruct Ha as [->|Ha], Hb as [->|Hb]; try reflexivity.
    + exfalso. apply Hx. rewrite Hk. now apply in_map.
    + exfalso. apply Hx. rewrite <- Hk. now apply in_map.
    + now apply IH.
  - now rewrite <- Hp1.
  - now apply keyOrdered_strongly.
  - now apply keyOrdered_strongly.
Qed.

(** C6: sorting amt100.png, amt2.png, amt.png, amt0.png, amt10.png,
    amt099.png by byte-wise comparison of their keys yields amt.png,
    amt0.png, amt2.png, amt10.png, amt099.png, amt100.png: the program's
    sort returns this list, and it is the only arrangement of the six names
    in key order. *)
Theorem natural_sort_example :
  sortSlice lessByName amtNames = amtSorted
  /\ forall l : list gostring,
       Permutation amtNames l -> keyOrdered l -> l = amtSorted.
Proof.
  assert (E : sortSlice lessByName amtNames = amtSorted) by (vm_compute; reflexivity).
  split; [exact E|].
  intros l Hp Hs.
  destruct (sortSlice_lessByName amtNames) as [Hp' Hs']. rewrite E in Hp', Hs'.
  apply (keyOrdered_unique amtNames); try assumption.
  vm_compute.
  repeat (constructor;
          [ intro H; repeat (destruct H as [H|H]; [discriminate H|]); exact H | ]).
  constructor.
Qed.

Lemma natural_sort_example_witness :
  sortSlice lessByName amtNames = amtSorted.
Proof.
  apply (proj2 natural_sort_example (sortSlice lessByName amtNames));
    apply sortSlice_lessByName.
Defined.

(* ----------------------------------------------------------------- *)
(** ** The directory scanner *)

Lemma HasSuffix_spec (s suffix : gostring) :
  HasSuffix s suffix = true <-> exists p, s = p ++ suffix.
Proof.
  unfold HasSuffix. rewrite andb_true_iff, Nat.leb_le, str_eqb_eq. split.
  - intros [_ H]. exists (firstn (length s - length suffix) s).
    rewrite <- H at 2. symmetry. apply firstn_skipn.
  - intros [p ->]. rewrite length_app. split; [lia|].
    replace (length p + length suffix - length suffix) with (length p) by lia.
    now rewrite skipn_app, skipn_all, Nat.sub_diag.
Qed.

Lemma any_spec (target : gostring) (other : list gostring)
  (f : gostring -> gostring -> bool) :
  any target other f = true <-> exists e, In e other /\ f target e = true.
Proof.
  induction other as [|e other IH]; cbn.
  - split; [discriminate | now intros [? [[] _]]].
  - destruct (f target e) eqn:E.
    + split; [|reflexivity]. intros _. exists e. auto.
    + rewrite IH. split.
      * intros [x [Hx Hf]]. exists x. auto.
      * intros [x [[<-|Hx] Hf]]; [congruence | now exists x].
Qed.

(** What the scanner keeps: the names of the entries that are no
    directories and end with one of the given strings. *)
Lemma selectFiles_spec (files : list FileInfo) (exts : list gostring)
  (name : gostring) :
  In name (selectFiles files exts) <->
  exists elem, In elem files /\ Name elem = name /\ IsDir elem = false
               /\ exists ext p, In ext exts /\ name = p ++ ext.
Proof.
  induction files as [|elem files IH]; cbn.
  - split; [easy | now intros [? [[] _]]].
  - destruct (negb (IsDir elem) && any (Name elem) exts HasSuffix) eqn:E.
    + cbn. rewrite IH. split.
      * intros [<-|[x Hx]].
        -- apply andb_true_iff in E as [Hd Ha].
           apply negb_true_iff in Hd. apply any_spec in Ha as [ext [Hin Hs]].
           apply HasSuffix_spec in Hs as [p Hp].
           exists elem. repeat split; auto. now exists ext, p.
        -- destruct Hx as [Hin Hx]. exists x. auto.
      * intros [x [[->|Hin] Hx]]; [left; apply Hx | right; now exists x].
    + rewrite IH. split.
      * intros [x [Hin Hx]]. exists x. auto.
      * intros [x [[->|Hin] Hx]]; [|now exists x].
        exfalso. destruct Hx as [Hn [Hd [ext [p [Hin Hp]]]]].
        rewrite Hd in E. cbn in E.
        assert (any (Name x) exts HasSuffix = true); [|congruence].
        apply any_spec. exists ext. split; [exact Hin|].
        apply HasSuffix_spec. exists p. congruence.
Qed.

(** C4: on a directory with the regular files a.png, b.txt, c.jpeg and d
    the scanner yields exactly a.png and c.jpeg (as absolute paths); but
    the suffixes it tests are png, jpg, jpeg, gif without the dot, so a
    regular file named mypng, which ends with none of .png, .jpg, .jpeg,
    .gif, is listed too, and the run then panics on its empty extension. *)
Theorem lsdir_lists_undotted_suffix :
  lsdir (demoEnv [regularFile "a.png"; regularFile "b.txt";
                  regularFile "c.jpeg"; regularFile "d"])
    (str "/x/y/photos") imageFormats initWorld
  = (Returned [str "/x/y/photos/a.png"; str "/x/y/photos/c.jpeg"], initWorld)
  /\ any (str "mypng") dottedFormats HasSuffix = false
  /\ lsdir (demoEnv [regularFile "mypng"]) (str "/x/y/photos") imageFormats
       initWorld
     = (Returned [str "/x/y/photos/mypng"], initWorld)
  /\ fst (main (demoEnv [regularFile "mypng"]) [str "imgdir2pdf"; str "/x/y/photos"]
            initWorld)
     = Panicked PanicSliceBounds.
Proof. repeat split; vm_compute; reflexivity. Qed.

(* ----------------------------------------------------------------- *)
(** ** [ParseUint] and [PutUint64] *)

Lemma isDigit_bounds (c : ascii) :
  isDigit c = true <-> (48 <= byte_val c <= 57)%N.
Proof.
  unfold isDigit. rewrite andb_true_iff, !N.leb_le.
  change (byte_val ch_0) with 48%N. change (byte_val ch_9) with 57%N. lia.
Qed.

Lemma notDigit_isDigit (c : ascii) : notDigit c = negb (isDigit c).
Proof.
  unfold notDigit, isDigit. rewrite negb_andb, !N.leb_antisym, !negb_involutive.
  reflexivity.
Qed.

(** One step of reading a decimal number. *)
Lemma decValue_step_ge (s : gostring) (n : N) :
  (n <= fold_left (fun acc c => acc * 10 + (byte_val c - byte_val ch_0)) s n)%N.
Proof.
  revert n. induction s as [|c s IH]; intro n; cbn [fold_left]; [lia|].
  etransitivity; [|apply IH]. lia.
Qed.

(** On a run of digits [ParseUint]'s loop returns the number read when it
    is below [2^64], and a range error otherwise. *)
Lemma parseUintLoop_digits (s : gostring) (n : N) :
  forallb isDigit s = true -> (n < two64)%N ->
  let v := fold_left (fun acc c => acc * 10 + (byte_val c - byte_val ch_0))%N s n in
  ((v < two64)%N -> parseUintLoop s n = inl v)
  /\ ((two64 <= v)%N -> parseUintLoop s n = inr ErrRange).
Proof.
  revert n. induction s as [|c s IH]; intros n Hs Hn; cbn [fold_left parseUintLoop].
  - cbn zeta. split; [reflexivity | lia].
  - cbn [forallb] in Hs. apply andb_true_iff in Hs as [Hc Hs].
    fold (isDigit c). rewrite Hc.
    apply isDigit_bounds in Hc.
    change (byte_val ch_0) with 48%N in *.
    change (maxUint64 / 10 + 1)%N with 1844674407370955162%N.
    pose proof (decValue_step_ge s (n * 10 + (byte_val c - 48))) as Hge.
    change (byte_val ch_0) with 48%N in Hge.
    unfold two64 in *. change (2 ^ 64)%N with 18446744073709551616%N in *.
    change maxUint64 with 18446744073709551615%N.
    cbn zeta.
    destruct (N.leb_spec 1844674407370955162 n) as [Hcut|Hcut].
    + split; [lia | reflexivity].
    + destruct (N.lt_ge_cases (n * 10 + (byte_val c - 48)) 18446744073709551616)
        as [Hsmall|Hbig].
      * rewrite (N.mod_small _ _ Hsmall).
        destruct (N.ltb_spec (n * 10 + (byte_val c - 48)) (n * 10)); [lia|].
        destruct (N.ltb_spec 18446744073709551615 (n * 10 + (byte_val c - 48)));
          [lia|].
        cbn [orb]. apply (IH _ Hs Hsmall).
      * assert (Hmod : ((n * 10 + (byte_val c - 48)) mod 18446744073709551616
                        = n * 10 + (byte_val c - 48) - 18446744073709551616)%N).
        { symmetry. apply (N.mod_unique _ _ 1); lia. }
        rewrite Hmod.
        destruct (N.ltb_spec (n * 10 + (byte_val c - 48) - 18446744073709551616)
                    (n * 10)); [|lia].
        cbn [orb]. split; [lia | reflexivity].
Qed.

(** [ParseUint] on a non-empty run of digits. *)
Lemma ParseUint_digits (s : gostring) :
  s <> [] -> forallb isDigit s = true ->
  ((decValue s < two64)%N -> ParseUint s = inl (decValue s))
  /\ ((two64 <= decValue s)%N -> ParseUint s = inr ErrRange).
Proof.
  intros Hne Hs. destruct s as [|c s]; [congruence|].
  unfold ParseUint. apply (parseUintLoop_digits (c :: s) 0 Hs). reflexivity.
Qed.

Lemma byte_val_byte_of (v : N) : byte_val (byte_of v) = (v mod 256)%N.
Proof.
  unfold byte_val, byte_of.
  change 255%N with (N.ones 8). rewrite N.land_ones.
  apply N_ascii_embedding. apply N.mod_lt. discriminate.
Qed.

Lemma shift_byte_step (v k : N) :
  (v / 2 ^ (k + 8) * 256 + (v / 2 ^ k) mod 256 = v / 2 ^ k)%N.
Proof.
  rewrite N.pow_add_r, <- N.Div0.div_div.
  change (2 ^ 8)%N with 256%N.
  rewrite (N.Div0.div_mod (v / 2 ^ k) 256) at 3. lia.
Qed.

(** The eight bytes [PutUint64] writes denote the number written. *)
Lemma beValue_PutUint64 (v : N) :
  (v < two64)%N -> beValue (PutUint64 v) = v.
Proof.
  intro Hv. unfold beValue, PutUint64. cbn [fold_left].
  rewrite !byte_val_byte_of, !N.shiftr_div_pow2.
  assert (H56 : ((v / 2 ^ 56) mod 256 = v / 2 ^ 56)%N).
  { apply N.mod_small. apply N.Div0.div_lt_upper_bound. exact Hv. }
  rewrite H56, N.mul_0_l, N.add_0_l.
  change 56%N with (48 + 8)%N. rewrite shift_byte_step.
  change 48%N with (40 + 8)%N. rewrite shift_byte_step.
  change 40%N with (32 + 8)%N. rewrite shift_byte_step.
  change 32%N with (24 + 8)%N. rewrite shift_byte_step.
  change 24%N with (16 + 8)%N. rewrite shift_byte_step.
  change 16%N with (8 + 8)%N. rewrite shift_byte_step.
  change (2 ^ 8)%N with 256%N.
  pose proof (N.Div0.div_mod v 256). lia.
Qed.

Lemma length_PutUint64 (v : N) : length (PutUint64 v) = 8.
Proof. reflexivity. Qed.

(* ----------------------------------------------------------------- *)
(** ** The pieces [sortName] cuts a file name into *)

Lemma isDot_not_slash (c : ascii) : isDot c = true -> isSlash c = false.
Proof.
  unfold isDot, isSlash. rewrite N.eqb_eq. intros ->. reflexivity.
Qed.

(** The backwards scan of [Ext] walks over bytes that are neither a slash
    nor a dot. *)
Lemma extScan_skip (b r : list ascii) (acc : gostring) :
  noSlash b = true -> noDot b = true ->
  extScan (rev b ++ r) acc = extScan r (b ++ acc).
Proof.
  revert acc. induction b as [|x b IH] using rev_ind; intros acc Hs Hd;
    [reflexivity|].
  unfold noSlash, noDot in *. rewrite forallb_app in Hs, Hd.
  apply andb_true_iff in Hs as [Hs Hx], Hd as [Hd Hx'].
  cbn in Hx, Hx'. rewrite andb_true_r in Hx, Hx'.
  apply negb_true_iff in Hx, Hx'.
  rewrite rev_app_distr. cbn. rewrite Hx, Hx'.
  rewrite (IH _ Hs Hd), <- app_assoc. reflexivity.
Qed.

(** What [splitLastDot] returns: the two parts make up the name, and the
    second is empty when the name has no dot, and else starts at its last
    dot. *)
Lemma splitLastDot_spec (s : gostring) :
  s = fst (splitLastDot s) ++ snd (splitLastDot s)
  /\ match snd (splitLastDot s) with
     | [] => noDot s = true
     | c :: b => isDot c = true /\ noDot b = true
     end.
Proof.
  unfold noDot.
  induction s as [|c s [IH1 IH2]]; cbn; [auto|].
  destruct (splitLastDot s) as [stem [|c' b]]; cbn in *.
  - destruct (isDot c) eqn:E; cbn.
    + auto.
    + split; [now rewrite <- IH1 | exact IH2].
  - split; [now rewrite <- IH1 | exact IH2].
Qed.

Lemma noSlash_app (a b : gostring) :
  noSlash (a ++ b) = true <-> noSlash a = true /\ noSlash b = true.
Proof. unfold noSlash. now rewrite forallb_app, andb_true_iff. Qed.

(** On a name without slash, [Ext] is the extension the specification
    means, and what is left of the name is the stem. *)
Lemma filepath_Ext_spec (filename : gostring) :
  noSlash filename = true ->
  filepath_Ext filename = specExt filename
  /\ firstn (length filename - length (filepath_Ext filename)) filename
     = specStem filename.
Proof.
  intro Hs. unfold specExt, specStem, filepath_Ext.
  destruct (splitLastDot_spec filename) as [Heq Hext].
  destruct (splitLastDot filename) as [stem ext]; cbn [fst snd] in *.
  assert (E : extScan (rev filename) [] = ext).
  { destruct ext as [|c b].
    - rewrite <- (app_nil_r (rev filename)).
      now rewrite extScan_skip.
    - destruct Hext as [Hc Hb]. subst filename.
      apply noSlash_app in Hs as [_ Hs]. cbn in Hs.
      apply andb_true_iff in Hs as [_ Hs].
      rewrite rev_app_distr. cbn [rev]. rewrite <- app_assoc. cbn [app].
      rewrite extScan_skip by assumption. cbn.
      rewrite (isDot_not_slash _ Hc), Hc. now rewrite app_nil_r. }
  rewrite E. split; [reflexivity|].
  rewrite Heq at 1 2. rewrite length_app.
  replace (length stem + length ext - length ext) with (length stem) by lia.
  rewrite firstn_app, Nat.sub_diag, firstn_all. cbn. apply app_nil_r.
Qed.

(** What [splitTrailingDigits] returns: the two parts make up the stem,
    the second holds digits only, and the first does not end with one. *)
Lemma splitTrailingDigits_spec (s : gostring) :
  s = fst (splitTrailingDigits s) ++ snd (splitTrailingDigits s)
  /\ forallb isDigit (snd (splitTrailingDigits s)) = true
  /\ (fst (splitTrailingDigits s) = []
      \/ exists p c, fst (splitTrailingDigits s) = p ++ [c] /\ isDigit c = false).
Proof.
  induction s as [|c s (IH1 & IH2 & IH3)]; cbn; [auto|].
  destruct (splitTrailingDigits s) as [[|x p] digits]; cbn in *.
  - destruct (isDigit c) eqn:E; cbn.
    + rewrite E. repeat split; [now rewrite <- IH1 | exact IH2 | now left].
    + repeat split; [now rewrite <- IH1 | exact IH2 |].
      right. now exists [], c.
  - repeat split; [now rewrite <- IH1 | exact IH2 |].
    right. destruct IH3 as [|[p' [c' [Hp Hc]]]]; [discriminate|].
    exists (c :: p'), c'. now rewrite Hp.
Qed.

Lemma digitRun_digits (d r : list ascii) :
  forallb isDigit d = true -> digitRun (rev d ++ r) = length d + digitRun r.
Proof.
  revert r. induction d as [|x d IH]; intros r Hd; [reflexivity|].
  cbn in Hd. apply andb_true_iff in Hd as [Hx Hd].
  cbn [rev]. rewrite <- app_assoc. cbn [app].
  rewrite (IH _ Hd). cbn. rewrite notDigit_isDigit, Hx. cbn. lia.
Qed.

(** The loop of [sortName] stops where the trailing digits start. *)
Lemma digitStart_spec (name : gostring) :
  firstn (digitStart name) name = fst (splitTrailingDigits name)
  /\ skipn (digitStart name) name = snd (splitTrailingDigits name).
Proof.
  destruct (splitTrailingDigits_spec name) as (Heq & Hd & Hp).
  destruct (splitTrailingDigits name) as [p d]; cbn [fst snd] in *.
  assert (E : digitStart name = length p).
  { unfold digitStart. rewrite Heq, rev_app_distr, digitRun_digits by exact Hd.
    rewrite length_app.
    destruct Hp as [->|[p' [c [-> Hc]]]]; cbn.
    - lia.
    - rewrite rev_app_distr. cbn. rewrite notDigit_isDigit, Hc. cbn. lia. }
  rewrite E, Heq.
  rewrite firstn_app, skipn_app, Nat.sub_diag, firstn_all, skipn_all. cbn.
  now rewrite app_nil_r.
Qed.

(** The key of a file name, by the parts the specification names. *)
Lemma sortName_parts (filename : gostring) :
  noSlash filename = true ->
  sortName filename
  = specPrefix filename ++ suffixKey (specDigits filename) ++ specExt filename.
Proof.
  intro Hs. unfold sortName. cbn zeta.
  destruct (filepath_Ext_spec filename Hs) as [-> ->].
  destruct (digitStart_spec (specStem filename)) as [-> ->].
  reflexivity.
Qed.

Lemma specDigits_digits (filename : gostring) :
  forallb isDigit (specDigits filename) = true.
Proof. apply splitTrailingDigits_spec. Qed.

Lemma PutUint64_zero : PutUint64 0 = zeroKey.
Proof. reflexivity. Qed.

(** The 8-byte block of the key for a run of digits: the sentinel for no
    digit and for a number that does not fit 64 bits, else the number plus
    one, wrapped to 64 bits. *)
Lemma suffixKey_digits (digits : gostring) :
  forallb isDigit digits = true ->
  (digits = [] -> suffixKey digits = zeroKey)
  /\ (digits <> [] -> (decValue digits < two64)%N ->
      suffixKey digits = PutUint64 ((decValue digits + 1) mod two64))
  /\ ((two64 <= decValue digits)%N -> suffixKey digits = zeroKey).
Proof.
  intro Hd. split; [intros ->; reflexivity|].
  destruct digits as [|c s]; [split; [congruence | intro H; exfalso; revert H; apply N.lt_nge; reflexivity]|].
  destruct (ParseUint_digits (c :: s)) as [Hok Herr]; [discriminate | exact Hd|].
  unfold suffixKey. split.
  - intros _ Hv. now rewrite (Hok Hv).
  - intros Hv. now rewrite (Herr Hv).
Qed.

(* ----------------------------------------------------------------- *)
(** ** The natural-sort key *)

(** A digit run that does not fit 64 bits leaves the all-zero block. *)
Lemma sortName_unparsable (filename : gostring) :
  noSlash filename = true ->
  (two64 <= decValue (specDigits filename))%N ->
  sortName filename = specPrefix filename ++ zeroKey ++ specExt filename.
Proof.
  intros Hs Hv. rewrite (sortName_parts _ Hs).
  destruct (suffixKey_digits _ (specDigits_digits filename)) as (_ & _ & H).
  now rewrite (H Hv).
Qed.

(** A digit run whose value plus one fits 64 bits is encoded as such. *)
Lemma sortName_parsable (filename : gostring) :
  noSlash filename = true ->
  specDigits filename <> [] ->
  (decValue (specDigits filename) < maxUint64)%N ->
  sortName filename
  = specPrefix filename ++ PutUint64 (decValue (specDigits filename) + 1)
      ++ specExt filename.
Proof.
  intros Hs Hne Hv. rewrite (sortName_parts _ Hs).
  destruct (suffixKey_digits _ (specDigits_digits filename)) as (_ & H & _).
  unfold maxUint64, two64 in *. rewrite (H Hne) by lia.
  rewrite N.mod_small by lia. reflexivity.
Qed.

(** C5, as stated, fails: the name a18446744073709551616.png has the digit
    run 18446744073709551616, and its key holds eight zero bytes where the
    specification puts an encoding of 18446744073709551617. *)
Lemma sortName_not_spec_beyond_uint64 :
  ~ sortKeySpec overflowName (sortName overflowName).
Proof.
  intros [block (Hk & Hl & Hv)].
  assert (E1 : sortName overflowName = str "a" ++ zeroKey ++ str ".png")
    by (vm_compute; reflexivity).
  assert (E2 : specPrefix overflowName = str "a") by (vm_compute; reflexivity).
  assert (E3 : specExt overflowName = str ".png") by (vm_compute; reflexivity).
  assert (E4 : specNumber (specDigits overflowName) = 18446744073709551617%N)
    by (vm_compute; reflexivity).
  rewrite E1, E2, E3 in Hk. apply app_inv_head in Hk. apply app_inv_tail in Hk.
  subst block. rewrite E4 in Hv. vm_compute in Hv. discriminate Hv.
Qed.

(** C5, amended: for every file name (a directory entry's name, without
    slash) whose trailing digit run is absent, or has a value below
    2^64 - 1, the key is the stem's prefix before the digit run, then the
    8-byte big-endian encoding of the value plus one (of zero when the run
    is absent), then the extension; when the value is 2^64 or more, the
    8-byte block is the all-zero sentinel. *)
Theorem sortName_key_when_number_fits :
  forall filename : gostring,
    noSlash filename = true ->
    ((decValue (specDigits filename) < maxUint64)%N ->
     sortKeySpec filename (sortName filename))
    /\ ((two64 <= decValue (specDigits filename))%N ->
        sortName filename
        = specPrefix filename ++ zeroKey ++ specExt filename).
Proof.
  intros filename Hs. split; [|now apply sortName_unparsable].
  intro Hv. unfold sortKeySpec.
  destruct (specDigits filename) as [|c d] eqn:E.
  - exists zeroKey. rewrite (sortName_parts _ Hs), E. now cbn.
  - exists (PutUint64 (decValue (specDigits filename) + 1)).
    rewrite <- E in Hv.
    split; [apply sortName_parsable; [exact Hs | now rewrite E | exact Hv]|].
    split; [reflexivity|].
    rewrite beValue_PutUint64; [now rewrite E|].
    unfold maxUint64, two64 in *. lia.
Qed.

Lemma sortName_key_when_number_fits_witness :
  sortKeySpec (str "amt099.png") (sortName (str "amt099.png")).
Proof.
  apply (sortName_key_when_number_fits (str "amt099.png"));
    vm_compute; reflexivity.
Defined.

Lemma str_ltb_app_head (p a b : gostring) :
  str_ltb (p ++ a) (p ++ b) = str_ltb a b.
Proof.
  induction p as [|x p IH]; cbn; [reflexivity|].
  now rewrite N.ltb_irrefl, N.eqb_refl, IH.
Qed.

(** A block of zero bytes comes before every other block of its length,
    whatever follows the two. *)
Lemma zero_block_first (n : nat) (block e e' : gostring) :
  length block = n -> block <> repeat Ascii.zero n ->
  str_ltb (repeat Ascii.zero n ++ e) (block ++ e') = true.
Proof.
  revert block. induction n as [|n IH]; intros [|c block] Hl Hne;
    try discriminate; [now cbn in Hne|].
  cbn. change (byte_val Ascii.zero) with 0%N.
  destruct (N.ltb_spec 0 (byte_val c)) as [|H0]; [reflexivity|].
  assert (Hc : c = Ascii.zero) by (apply byte_val_inj; cbn; lia).
  subst c. cbn. apply IH; [now injection Hl|].
  intro H. apply Hne. cbn. now rewrite H.
Qed.

(** A name whose digit run does not fit 64 bits sorts before every name of
    the same prefix whose digit run has a value below 2^64 - 1. *)
Lemma unparsable_sorts_first (f g : gostring) :
  noSlash f = true -> noSlash g = true ->
  specPrefix f = specPrefix g ->
  (two64 <= decValue (specDigits f))%N ->
  specDigits g <> [] -> (decValue (specDigits g) < maxUint64)%N ->
  lessByName f g = true.
Proof.
  intros Hf Hg Hp Hvf Hne Hvg. unfold lessByName.
  rewrite (sortName_unparsable _ Hf Hvf), (sortName_parsable _ Hg Hne Hvg), Hp.
  rewrite str_ltb_app_head. apply zero_block_first; [reflexivity|].
  intro H. apply (f_equal beValue) in H.
  rewrite beValue_PutUint64 in H; [cbn in H; lia|].
  unfold maxUint64, two64 in *. lia.
Qed.

(** C10: the name a18446744073709551616.png, whose digit run does not parse
    as a 64-bit unsigned integer, gets the all-zero block; but so does the
    name with the digit run 18446744073709551615, which parses: the sum
    u64 + 1 wraps around to zero.  The two .png names have the same key,
    and the parseable name with the extension .jpg sorts before the
    unparseable one. *)
Theorem max_uint64_suffix_gets_zero_block :
  ParseUint (str "18446744073709551616") = inr ErrRange
  /\ sortName overflowName = str "a" ++ zeroKey ++ str ".png"
  /\ ParseUint (str "18446744073709551615") = inl maxUint64
  /\ sortName maxName = sortName overflowName
  /\ lessByName overflowName maxName = false
  /\ sortSlice lessByName [overflowName; maxNameJpg] = [maxNameJpg; overflowName].
Proof. repeat split; vm_compute; reflexivity. Qed.

(* ----------------------------------------------------------------- *)
(** ** Running the program *)

Lemma bind_returned (A B : Type) (m : Run A) (k : A -> Run B) (w w' : World)
  (b : B) :
  bind m k w = (Returned b, w') ->
  exists a w1, m w = (Returned a, w1) /\ k a w1 = (Returned b, w').
Proof.
  unfold bind. destruct (m w) as [[a|p] w1]; [|discriminate].
  intro H. now exists a, w1.
Qed.

Lemma mapOrPanic_returned (A B : Type) (f : A -> B + GoError) (l : list A)
  (w w' : World) (ys : list B) :
  mapOrPanic f l w = (Returned ys, w') ->
  w' = w /\ Forall2 (fun x y => f x = inl y) l ys.
Proof.
  revert ys. induction l as [|x l IH]; intros ys; cbn.
  - intros [= <- <-]. split; [reflexivity | constructor].
  - destruct (f x) as [y|e] eqn:E; [|discriminate].
    intro H. apply bind_returned in H as (zs & w1 & H1 & H2).
    injection H2 as <- <-. destruct (IH _ H1) as [-> HF].
    split; [reflexivity | now constructor].
Qed.

Lemma getImageSize_world (env : Env) (imagepath : gostring) (w w' : World)
  (o : Outcome (float * float)) :
  getImageSize env imagepath w = (o, w') -> w' = w.
Proof.
  unfold getImageSize.
  destruct (os_Open env imagepath); [now intros [= _ <-]|].
  destruct (image_DecodeConfig env imagepath) as [[width height]|e];
    now intros [= _ <-].
Qed.

Lemma nth_error_replaceNth (A : Type) (l : list A) (n : nat) (x y : A) :
  nth_error l n = Some y -> nth_error (replaceNth n x l) n = Some x.
Proof.
  revert n. induction l as [|z l IH]; intros [|n]; cbn; try discriminate.
  - reflexivity.
  - apply IH.
Qed.

Lemma onDoc_returned (p : nat) (f : Fpdf -> Fpdf) (w w' : World) (d : Fpdf) :
  nth_error (docs w) p = Some d ->
  onDoc p f w = (Returned tt, w') ->
  nth_error (docs w') p = Some (f d) /\ files w' = files w.
Proof.
  unfold onDoc. intros Hd. rewrite Hd. intros [= <-]. cbn.
  split; [now apply nth_error_replaceNth with d | reflexivity].
Qed.

Lemma placeOnLast_last (img : PlacedImage) (ps : list Page) (p : Page) :
  placeOnLast img (ps ++ [p])
  = ps ++ [ {| pageSize := pageSize p; pageImages := pageImages p ++ [img] |} ].
Proof.
  induction ps as [|q ps IH]; [reflexivity|].
  cbn [app placeOnLast]. rewrite IH.
  destruct (ps ++ [p]) eqn:E; [now destruct ps | reflexivity].
Qed.





(** C7: on an empty list of paths [processImages] panics with its
    empty-input message and leaves the world as it found it: no document
    has been created, no file written.  So does the whole run when no entry
    of the directory is selected and the directory's path resolves; and
    whenever no entry is selected the run ends in a panic with the world
    unchanged. *)
Theorem processImages_empty_input :
  (forall (env : Env) (saveAs : gostring) (w : World),
      processImages env [] saveAs w = (Panicked emptyInputPanic, w))
  /\ (forall (env : Env) (prog dir : gostring) (rest : list gostring)
        (entries : list FileInfo) (w : World),
        os_ReadDir env dir = inl entries ->
        selectFiles entries imageFormats = [] ->
        (forall resultPath, filepath_Abs env dir = inl resultPath ->
           main env (prog :: dir :: rest) w = (Panicked emptyInputPanic, w))
        /\ exists p, main env (prog :: dir :: rest) w = (Panicked p, w)).
Proof.
  split; [reflexivity|].
  intros env prog dir rest entries w Hdir Hsel.
  assert (E : main env (prog :: dir :: rest) w
              = bind (getOutFilename env dir)
                  (fun saveAs => processImages env [] saveAs) w).
  { unfold main, lsdir. rewrite Hdir, Hsel. reflexivity. }
  rewrite E. unfold bind, getOutFilename.
  destruct (filepath_Abs env dir) as [resultPath|err].
  - split; [reflexivity | now eexists].
  - split; [discriminate | now eexists].
Qed.

Lemma processImages_empty_input_witness :
  main (demoEnv [regularFile "b.txt"; regularFile "d"])
    [str "imgdir2pdf"; str "photos"] initWorld
  = (Panicked emptyInputPanic, initWorld).
Proof.
  apply (proj1 (proj2 processImages_empty_input
                  (demoEnv [regularFile "b.txt"; regularFile "d"])
                  (str "imgdir2pdf") (str "photos") []
                  [regularFile "b.txt"; regularFile "d"] initWorld
                  eq_refl eq_refl) (str "/x/y/photos")).
  reflexivity.
Defined.



(* ----------------------------------------------------------------- *)
(** ** Paths *)

Lemma isSlash_eq (c : ascii) : isSlash c = true <-> c = ch_slash.
Proof.
  unfold isSlash. rewrite N.eqb_eq. split; [apply byte_val_inj | now intros ->].
Qed.

Lemma strings_Join_cons (e : gostring) (rest : list gostring) (sep : gostring) :
  rest <> [] ->
  strings_Join (e :: rest) sep = e ++ sep ++ strings_Join rest sep.
Proof. destruct rest; [congruence | reflexivity]. Qed.

Lemma strings_Join_snoc (elems : list gostring) (x sep : gostring) :
  elems <> [] ->
  strings_Join (elems ++ [x]) sep = strings_Join elems sep ++ sep ++ x.
Proof.
  induction elems as [|e rest IH]; [congruence|]. intros _.
  destruct rest as [|e' rest]; [reflexivity|].
  change ((e :: e' :: rest) ++ [x]) with (e :: ((e' :: rest) ++ [x])).
  rewrite strings_Join_cons by discriminate.
  rewrite IH by discriminate.
  rewrite (strings_Join_cons e) by discriminate.
  now rewrite <- !app_assoc.
Qed.

Lemma splitSlash_nonempty (s : gostring) : splitSlash s <> [].
Proof.
  destruct s as [|c s]; cbn; [discriminate|].
  destruct (isSlash c); [discriminate|].
  destruct (splitSlash s); discriminate.
Qed.

(** A slash ends one element and starts the next. *)
Lemma splitSlash_app (a b : gostring) :
  splitSlash (a ++ ch_slash :: b) = splitSlash a ++ splitSlash b.
Proof.
  induction a as [|c a IH]; [reflexivity|].
  cbn. rewrite IH. destruct (isSlash c); [reflexivity|].
  pose proof (splitSlash_nonempty a).
  destruct (splitSlash a); [congruence | reflexivity].
Qed.

Lemma splitSlash_noSlash (e : gostring) :
  noSlash e = true -> splitSlash e = [e].
Proof.
  induction e as [|c e IH]; [reflexivity|].
  cbn. intro H. apply andb_true_iff in H as [Hc He].
  apply negb_true_iff in Hc. now rewrite Hc, (IH He).
Qed.

Lemma splitSlash_elems (s : gostring) :
  Forall (fun e => noSlash e = true) (splitSlash s).
Proof.
  induction s as [|c s IH]; cbn; [now repeat constructor|].
  destruct (isSlash c) eqn:E; [now constructor|].
  destruct (splitSlash s) as [|e es]; [now repeat constructor; cbn; rewrite E|].
  inversion_clear IH. constructor; [cbn; now rewrite E | assumption].
Qed.

Lemma properElem_noSlash (e : gostring) : properElem e = true -> noSlash e = true.
Proof. unfold properElem. rewrite !andb_true_iff. tauto. Qed.

(** The elements of a path joined from proper elements. *)
Lemma splitSlash_Join (elems : list gostring) :
  Forall (fun e => properElem e = true) elems -> elems <> [] ->
  splitSlash (strings_Join elems [ch_slash]) = elems.
Proof.
  induction 1 as [|e rest He Hrest IH]; [congruence|]. intros _.
  apply properElem_noSlash in He.
  destruct rest as [|e' rest]; [now apply splitSlash_noSlash|].
  rewrite strings_Join_cons by discriminate.
  cbn [app]. rewrite splitSlash_app, IH by discriminate.
  now rewrite splitSlash_noSlash.
Qed.

(** [Clean] keeps a proper element and drops an empty one. *)
Lemma cleanStep_proper (rooted : bool) (stack : list gostring) (e : gostring) :
  properElem e = true -> cleanStep rooted stack e = e :: stack.
Proof.
  unfold properElem, cleanStep. rewrite !andb_true_iff, !negb_true_iff.
  intros [[[-> ->] ->] _]. reflexivity.
Qed.

Lemma cleanFold_proper (rooted : bool) (l stack : list gostring) :
  Forall (fun e => properElem e = true) l ->
  fold_left (cleanStep rooted) l stack = rev l ++ stack.
Proof.
  intro H. revert stack. induction H as [|e l He _ IH]; intro stack;
    [reflexivity|].
  cbn. rewrite (cleanStep_proper _ _ _ He), IH, <- app_assoc. reflexivity.
Qed.

(** Whatever [Clean] reads, the elements it keeps in a rooted path are
    proper. *)
Lemma cleanStep_keeps_proper (stack : list gostring) (e : gostring) :
  noSlash e = true ->
  Forall (fun x => properElem x = true) stack ->
  Forall (fun x => properElem x = true) (cleanStep true stack e).
Proof.
  intros He Hst. unfold cleanStep.
  destruct (str_eqb e []) eqn:E1; [exact Hst|].
  destruct (str_eqb e (str ".")) eqn:E2; [exact Hst|]. cbn [orb].
  destruct (str_eqb e (str "..")) eqn:E3.
  - destruct stack as [|top below]; [constructor|].
    inversion_clear Hst as [|? ? Htop Hbelow].
    destruct (str_eqb top (str "..")) eqn:E4; [|exact Hbelow].
    unfold properElem in Htop. rewrite E4 in Htop.
    rewrite !andb_true_iff in Htop. cbn in Htop. intuition discriminate.
  - constructor; [|exact Hst]. unfold properElem. now rewrite E1, E2, E3, He.
Qed.

Lemma cleanFold_keeps_proper (l stack : list gostring) :
  Forall (fun e => noSlash e = true) l ->
  Forall (fun x => properElem x = true) stack ->
  Forall (fun x => properElem x = true) (fold_left (cleanStep true) l stack).
Proof.
  intro H. revert stack. induction H as [|e l He _ IH]; intros stack Hst;
    [exact Hst|].
  cbn. apply IH. now apply cleanStep_keeps_proper.
Qed.

(** [Clean] of a rooted path is a rooted path of proper elements. *)
Lemma filepath_Clean_rooted (rest : gostring) :
  exists elems, Forall (fun e => properElem e = true) elems
    /\ filepath_Clean (ch_slash :: rest) = rootedPath elems.
Proof.
  exists (cleanElems true (ch_slash :: rest)). split; [|reflexivity].
  unfold cleanElems. apply Forall_rev. apply cleanFold_keeps_proper.
  - apply splitSlash_elems.
  - constructor.
Qed.

(** Joining one proper element to a clean rooted path appends it. *)
Lemma filepath_Join_rooted (elems : list gostring) (x : gostring) :
  Forall (fun e => properElem e = true) elems -> properElem x = true ->
  filepath_Join [rootedPath elems; x] = rootedPath (elems ++ [x]).
Proof.
  intros He Hx. unfold filepath_Join, rootedPath.
  cbn [strings_Join app]. unfold filepath_Clean.
  change (isSlash ch_slash) with true. cbn iota. f_equal. f_equal.
  unfold cleanElems. cbn [splitSlash]. change (isSlash ch_slash) with true.
  cbn iota. cbn [fold_left]. change (cleanStep true [] []) with (@nil gostring).
  rewrite splitSlash_app, (splitSlash_noSlash x (properElem_noSlash _ Hx)).
  destruct elems as [|e rest].
  - cbn [strings_Join splitSlash app fold_left].
    change (cleanStep true [] []) with (@nil gostring).
    now rewrite (cleanStep_proper _ _ _ Hx).
  - rewrite splitSlash_Join by (assumption || discriminate).
    rewrite cleanFold_proper.
    + now rewrite app_nil_r, rev_involutive.
    + apply Forall_app. split; [assumption | now repeat constructor].
Qed.

Lemma HasPrefix_slash (path : gostring) :
  filepath_IsAbs path = true -> exists rest, path = ch_slash :: rest.
Proof.
  destruct path as [|c rest]; [discriminate|].
  unfold filepath_IsAbs, HasPrefix. cbn.
  rewrite andb_true_r. intro H. apply isSlash_eq in H. subst c. now exists rest.
Qed.

(** With a rooted working directory, [Abs] returns a clean rooted path. *)
Lemma filepath_Abs_rooted (env : Env) (path resultPath : gostring) :
  (forall wd, os_Getwd env = inl wd -> filepath_IsAbs wd = true) ->
  filepath_Abs env path = inl resultPath ->
  exists elems, Forall (fun e => properElem e = true) elems
    /\ resultPath = rootedPath elems.
Proof.
  intros Hwd. unfold filepath_Abs.
  destruct (filepath_IsAbs path) eqn:E.
  - apply HasPrefix_slash in E as [rest ->]. intros [= <-].
    apply filepath_Clean_rooted.
  - destruct (os_Getwd env) as [wd|err]; [|discriminate].
    destruct (HasPrefix_slash wd (Hwd wd eq_refl)) as [rest ->].
    intros [= <-]. cbn [filepath_Join strings_Join].
    apply (filepath_Clean_rooted (rest ++ [ch_slash] ++ path)).
Qed.

Lemma lastElemScan_elem (e r : list ascii) (acc : gostring) :
  noSlash e = true ->
  lastElemScan (rev e ++ ch_slash :: r) acc = e ++ acc.
Proof.
  revert acc. induction e as [|x e IH] using rev_ind; intros acc He;
    [reflexivity|].
  apply noSlash_app in He as [He Hx]. cbn in Hx. rewrite andb_true_r in Hx.
  apply negb_true_iff in Hx.
  rewrite rev_app_distr. cbn. rewrite Hx, (IH _ He), <- app_assoc. reflexivity.
Qed.

(** [Base] of a clean rooted path is its last element; at the root it is
    the slash. *)
Lemma filepath_Base_rooted (elems : list gostring) :
  Forall (fun e => properElem e = true) elems -> elems <> [] ->
  filepath_Base (rootedPath elems) = lastElem elems.
Proof.
  intros He Hne.
  destruct (exists_last Hne) as (init & e & ->).
  apply Forall_app in He as [_ He]. inversion_clear He as [|? ? Hp _].
  unfold lastElem. rewrite last_last.
  assert (Hq : exists q, rootedPath (init ++ [e]) = q ++ ch_slash :: e).
  { unfold rootedPath. destruct init as [|i init].
    - now exists [].
    - rewrite strings_Join_snoc by discriminate.
      exists (ch_slash :: strings_Join (i :: init) [ch_slash]).
      reflexivity. }
  destruct Hq as [q Hq]. rewrite Hq.
  assert (Hs := properElem_noSlash _ Hp).
  destruct e as [|c e] using rev_ind; [discriminate Hp|]. clear IHe.
  unfold filepath_Base.
  destruct (q ++ ch_slash :: e ++ [c]) eqn:E; [now destruct q|]. rewrite <- E.
  rewrite rev_app_distr. cbn [rev]. rewrite <- app_assoc. cbn [app].
  assert (Hc : isSlash c = false).
  { apply noSlash_app in Hs as [_ Hc]. cbn in Hc.
    rewrite andb_true_r in Hc. now apply negb_true_iff. }
  rewrite rev_app_distr. cbn [rev app dropSlashes]. rewrite Hc.
  change (c :: rev e ++ ch_slash :: rev q)
    with ((c :: rev e) ++ ch_slash :: rev q).
  replace (c :: rev e) with (rev (e ++ [c])) by (now rewrite rev_app_distr).
  rewrite lastElemScan_elem by exact Hs. rewrite app_nil_r.
  destruct (e ++ [c]) eqn:E'; [now destruct e | reflexivity].
Qed.

Lemma properElem_pdf (e : gostring) :
  noSlash e = true -> properElem (e ++ str ".pdf") = true.
Proof.
  intro He. unfold properElem.
  assert (Hs : noSlash (e ++ str ".pdf") = true)
    by (apply noSlash_app; split; [exact He | reflexivity]).
  rewrite Hs.
  assert (Hl : forall s, length s < 4 -> str_eqb (e ++ str ".pdf") s = false).
  { intros s Hlen. destruct (str_eqb (e ++ str ".pdf") s) eqn:E; [|reflexivity].
    apply str_eqb_eq in E. apply (f_equal (@length ascii)) in E.
    rewrite length_app in E. cbn in E. lia. }
  rewrite !Hl by (cbn; lia). reflexivity.
Qed.

(** C8: the output path is the directory's absolute path extended by one
    element, the base name of that path followed by .pdf.  With a rooted
    working directory the absolute path is a clean rooted path; unless it is
    the root itself, the output path is that path, a slash, its last element
    and .pdf.  For a directory that resolves to /x/y/photos the output path
    is /x/y/photos/photos.pdf. *)
Theorem getOutFilename_in_directory :
  (forall (env : Env) (basepath resultPath : gostring),
      (forall wd, os_Getwd env = inl wd -> filepath_IsAbs wd = true) ->
      filepath_Abs env basepath = inl resultPath ->
      exists elems : list gostring,
        Forall (fun e => properElem e = true) elems
        /\ resultPath = rootedPath elems
        /\ (forall w : World,
              getOutFilename env basepath w
              = (Returned (rootedPath (elems ++ [lastElem elems ++ str ".pdf"])),
                 w))
        /\ (elems <> [] ->
            filepath_Base resultPath = lastElem elems
            /\ rootedPath (elems ++ [lastElem elems ++ str ".pdf"])
               = resultPath ++ [ch_slash] ++ filepath_Base resultPath
                   ++ str ".pdf"))
  /\ (forall (env : Env) (basepath : gostring) (w : World),
        filepath_Abs env basepath = inl (str "/x/y/photos") ->
        getOutFilename env basepath w
        = (Returned (str "/x/y/photos/photos.pdf"), w)).
Proof.
  split.
  - intros env basepath resultPath Hwd Habs.
    destruct (filepath_Abs_rooted env basepath resultPath Hwd Habs)
      as (elems & He & ->).
    exists elems. split; [exact He|]. split; [reflexivity|].
    unfold getOutFilename. rewrite Habs.
    assert (Hcase : elems = [] \/ elems <> [])
      by (destruct elems; [left | right]; congruence).
    destruct Hcase as [->|Hne].
    + split; [intro w; reflexivity | congruence].
    + rewrite (filepath_Base_rooted elems He Hne).
      assert (Hlast : properElem (lastElem elems ++ str ".pdf") = true).
      { apply properElem_pdf, properElem_noSlash.
        rewrite Forall_forall in He. apply He.
        destruct (exists_last Hne) as (init & e & ->).
        unfold lastElem. rewrite last_last. apply in_or_app. right. now left. }
      split.
      * intro w. unfold ret. do 2 f_equal.
        exact (filepath_Join_rooted elems _ He Hlast).
      * intros _. split; [reflexivity|].
        unfold rootedPath. rewrite strings_Join_snoc by exact Hne.
        reflexivity.
  - intros env basepath w Habs. unfold getOutFilename. rewrite Habs.
    reflexivity.
Qed.

Lemma getOutFilename_in_directory_witness :
  exists elems : list gostring,
    Forall (fun e => properElem e = true) elems
    /\ str "/x/y/photos" = rootedPath elems
    /\ (forall w : World,
          getOutFilename (demoEnv []) (str "photos") w
          = (Returned (rootedPath (elems ++ [lastElem elems ++ str ".pdf"])), w))
    /\ (elems <> [] ->
        filepath_Base (str "/x/y/photos") = lastElem elems
        /\ rootedPath (elems ++ [lastElem elems ++ str ".pdf"])
           = str "/x/y/photos" ++ [ch_slash]
               ++ filepath_Base (str "/x/y/photos") ++ str ".pdf").
Proof.
  apply (proj1 getOutFilename_in_directory (demoEnv []) (str "photos")
           (str "/x/y/photos")).
  - intros wd [= <-]. reflexivity.
  - reflexivity.
Defined.

(* ================================================================= *)
(** * Further properties of the program *)

(* ----------------------------------------------------------------- *)
(** ** The order the keys give *)

(** The value of a byte sequence, by its first byte. *)
Lemma beValue_acc (x : gostring) (acc : N) :
  fold_left (fun a c => (a * 256 + byte_val c)%N) x acc
  = (acc * 256 ^ N.of_nat (length x) + beValue x)%N.
Proof.
  unfold beValue. revert acc. induction x as [|c x IH]; intro acc.
  - cbn. lia.
  - cbn [fold_left length]. rewrite IH, (IH (0 * 256 + byte_val c)%N).
    rewrite Nat2N.inj_succ, N.pow_succ_r'. ring.
Qed.

Lemma beValue_cons (c : ascii) (x : gostring) :
  beValue (c :: x)
  = (byte_val c * 256 ^ N.of_nat (length x) + beValue x)%N.
Proof.
  unfold beValue at 1. cbn [fold_left]. rewrite beValue_acc. ring.
Qed.

Lemma beValue_bound (x : gostring) :
  (beValue x < 256 ^ N.of_nat (length x))%N.
Proof.
  induction x as [|c x IH]; [cbn; lia|].
  rewrite beValue_cons. cbn [length]. rewrite Nat2N.inj_succ, N.pow_succ_r'.
  pose proof (byte_val_lt_256 c). nia.
Qed.

(** Two byte blocks of one length compare byte-wise as the numbers they
    denote, whatever follows them. *)
Lemma be_block_order (x y e e' : gostring) :
  length x = length y -> (beValue x < beValue y)%N ->
  str_ltb (x ++ e) (y ++ e') = true.
Proof.
  revert y. induction x as [|c x IH]; intros [|d y] Hl Hv; try discriminate.
  injection Hl as Hl. rewrite !beValue_cons, <- Hl in Hv.
  pose proof (beValue_bound x) as Bx.
  pose proof (beValue_bound y) as By. rewrite <- Hl in By.
  cbn [app str_ltb]. byte_cases c d; try reflexivity.
  - apply IH; [exact Hl | nia].
  - exfalso. nia.
Qed.

(** The key of a name whose digit run, if any, is below [2^64 - 1]. *)
Lemma sortName_block (filename : gostring) :
  noSlash filename = true ->
  (decValue (specDigits filename) < maxUint64)%N ->
  sortName filename
  = specPrefix filename ++ PutUint64 (specNumber (specDigits filename))
      ++ specExt filename.
Proof.
  intros Hs Hv. destruct (specDigits filename) as [|c d] eqn:E.
  - rewrite (sortName_parts _ Hs), E. reflexivity.
  - rewrite <- E in *. rewrite sortName_parsable; try assumption.
    + unfold specNumber. now rewrite E.
    + now rewrite E.
Qed.

Lemma specNumber_bound (digits : gostring) :
  (decValue digits < maxUint64)%N -> (specNumber digits < two64)%N.
Proof.
  unfold maxUint64, two64, specNumber. destruct digits; cbn; lia.
Qed.

Lemma specNumber_lt_fits (d1 d2 : gostring) :
  (specNumber d1 < specNumber d2)%N -> (decValue d2 < maxUint64)%N ->
  (decValue d1 < maxUint64)%N.
Proof.
  unfold specNumber, maxUint64, two64.
  destruct d1 as [|c1 d1], d2 as [|c2 d2]; cbn [decValue fold_left]; try lia.
  all: change (fold_left _ [] 0%N) with 0%N; try lia.
Qed.

(** X1: of two file names with the same prefix before the digit run, the
    one with the smaller number sorts first, a name without digit run
    before all with one, whatever the extensions are.  (The larger digit
    run must be below [2^64 - 1].) *)
Theorem smaller_number_sorts_first :
  forall f g : gostring,
    noSlash f = true -> noSlash g = true ->
    specPrefix f = specPrefix g ->
    (decValue (specDigits g) < maxUint64)%N ->
    (specNumber (specDigits f) < specNumber (specDigits g))%N ->
    lessByName f g = true.
Proof.
  intros f g Hf Hg Hp Hvg Hlt.
  pose proof (specNumber_lt_fits _ _ Hlt Hvg) as Hvf.
  unfold lessByName.
  rewrite (sortName_block _ Hf Hvf), (sortName_block _ Hg Hvg), Hp.
  rewrite str_ltb_app_head. apply be_block_order; [reflexivity|].
  rewrite !beValue_PutUint64; auto using specNumber_bound.
Qed.

Lemma smaller_number_sorts_first_witness :
  lessByName (str "amt099.jpg") (str "amt100.gif") = true
  /\ lessByName (str "amt.png") (str "amt0.png") = true.
Proof.
  split.
  - apply (smaller_number_sorts_first (str "amt099.jpg") (str "amt100.gif"));
      vm_compute; reflexivity.
  - apply (smaller_number_sorts_first (str "amt.png") (str "amt0.png"));
      vm_compute; reflexivity.
Defined.

(** X2: file names that differ only in leading zeros of the digit run have
    the same key: with the same prefix, the same extension and digit runs
    of the same value (below [2^64 - 1]) the keys are equal, so the order
    of such files is left to the sort. *)
Theorem equal_numbers_tie :
  forall f g : gostring,
    noSlash f = true -> noSlash g = true ->
    specPrefix f = specPrefix g -> specExt f = specExt g ->
    (decValue (specDigits f) < maxUint64)%N ->
    (decValue (specDigits g) < maxUint64)%N ->
    specNumber (specDigits f) = specNumber (specDigits g) ->
    sortName f = sortName g
    /\ lessByName f g = false /\ lessByName g f = false.
Proof.
  intros f g Hf Hg Hp He Hvf Hvg Hn.
  assert (E : sortName f = sortName g).
  { rewrite (sortName_block _ Hf Hvf), (sortName_block _ Hg Hvg).
    now rewrite Hp, He, Hn. }
  split; [exact E|]. unfold lessByName. rewrite E.
  split; apply str_ltb_irrefl.
Qed.

Lemma equal_numbers_tie_witness :
  sortName (str "amt7.png") = sortName (str "amt007.png")
  /\ lessByName (str "amt7.png") (str "amt007.png") = false
  /\ lessByName (str "amt007.png") (str "amt7.png") = false.
Proof.
  apply (equal_numbers_tie (str "amt7.png") (str "amt007.png"));
    vm_compute; reflexivity.
Defined.

(** X3: the comparator [lsdir] hands to [sort.Slice] is a strict weak
    order, as the sort requires: no name is less than itself, "less" is
    transitive and so is "not less"; and two names tie exactly when their
    keys are equal. *)
Theorem lessByName_strict_weak_order :
  (forall a, lessByName a a = false)
  /\ (forall a b c,
        lessByName a b = true -> lessByName b c = true ->
        lessByName a c = true)
  /\ (forall a b c,
        lessByName a b = false -> lessByName b c = false ->
        lessByName a c = false)
  /\ (forall a b,
        (lessByName a b = false /\ lessByName b a = false)
        <-> sortName a = sortName b).
Proof.
  unfold lessByName. repeat split.
  - intro a. apply str_ltb_irrefl.
  - intros a b c. apply str_ltb_trans.
  - intros a b c Hab Hbc. now apply str_leb_trans with (sortName b).
  - intros [Hab Hba]. now apply str_ltb_total.
  - rewrite H. apply str_ltb_irrefl.
  - rewrite H. apply str_ltb_irrefl.
Qed.

Lemma lessByName_strict_weak_order_witness :
  lessByName (str "amt2.png") (str "amt100.png") = true.
Proof.
  apply (proj1 (proj2 lessByName_strict_weak_order)
           (str "amt2.png") (str "amt10.png") (str "amt100.png"));
    vm_compute; reflexivity.
Defined.

(* ----------------------------------------------------------------- *)
(** ** Absolute paths of the listed files *)

Lemma splitSlash_Join_noSlash (elems : list gostring) :
  Forall (fun e => noSlash e = true) elems -> elems <> [] ->
  splitSlash (strings_Join elems [ch_slash]) = elems.
Proof.
  induction 1 as [|e rest He Hrest IH]; [congruence|]. intros _.
  destruct rest as [|e' rest]; [now apply splitSlash_noSlash|].
  rewrite strings_Join_cons by discriminate.
  cbn [app]. rewrite splitSlash_app, IH by discriminate.
  now rewrite splitSlash_noSlash.
Qed.

Lemma keptElem_cases (e : gostring) :
  keptElem e = true -> properElem e = true \/ e = str "..".
Proof.
  unfold keptElem. rewrite orb_true_iff, str_eqb_eq. tauto.
Qed.

Lemma keptElem_noSlash (e : gostring) : keptElem e = true -> noSlash e = true.
Proof.
  intro H. destruct (keptElem_cases _ H) as [Hp| ->];
    [now apply properElem_noSlash | reflexivity].
Qed.

Lemma properElem_not_dotdot (e : gostring) :
  properElem e = true -> str_eqb e (str "..") = false.
Proof.
  unfold properElem. rewrite !andb_true_iff, !negb_true_iff. tauto.
Qed.

(** The three ways [Clean] reads an element. *)
Lemma cleanStep_cases (e : gostring) :
  noSlash e = true ->
  (forall rooted stack, cleanStep rooted stack e = stack)
  \/ e = str ".."
  \/ properElem e = true.
Proof.
  intro He. unfold cleanStep, properElem.
  destruct (str_eqb e []) eqn:E1; [now left|].
  destruct (str_eqb e (str ".")) eqn:E2; [now left|].
  destruct (str_eqb e (str "..")) eqn:E3.
  - right. left. now apply str_eqb_eq.
  - right. right. now rewrite He.
Qed.

(** In a path that is not rooted [Clean] keeps proper elements and [..]. *)
Lemma cleanStep_kept (stack : list gostring) (e : gostring) :
  noSlash e = true ->
  Forall (fun x => keptElem x = true) stack ->
  Forall (fun x => keptElem x = true) (cleanStep false stack e).
Proof.
  intros He Hst. destruct (cleanStep_cases e He) as [H|[->|Hp]].
  - now rewrite H.
  - destruct stack as [|top below]; [now repeat constructor|].
    cbn. match goal with |- context [if ?b then _ else _] => destruct b end.
    + now constructor.
    + now inversion Hst.
  - rewrite (cleanStep_proper _ _ _ Hp). constructor; [|exact Hst].
    unfold keptElem. now rewrite Hp.
Qed.

Lemma cleanFold_kept (l stack : list gostring) :
  Forall (fun e => noSlash e = true) l ->
  Forall (fun x => keptElem x = true) stack ->
  Forall (fun x => keptElem x = true) (fold_left (cleanStep false) l stack).
Proof.
  intro H. revert stack. induction H as [|e l He _ IH]; intros stack Hst;
    [exact Hst|].
  cbn. apply IH. now apply cleanStep_kept.
Qed.

(** Reading a path that is not rooted after a rooted one, element by
    element, and reading its cleaned elements, come to the same. *)
Lemma cleanFold_agree (l st : list gostring) :
  Forall (fun e => noSlash e = true) l ->
  fold_left (cleanStep true) l st
  = fold_left (cleanStep true) (rev (fold_left (cleanStep false) l [])) st.
Proof.
  induction l as [|e l IH] using rev_ind; intro Hl; [reflexivity|].
  apply Forall_app in Hl as [Hl He]. inversion_clear He as [|? ? He' _].
  rewrite !fold_left_app. cbn [fold_left]. rewrite (IH Hl).
  pose proof (cleanFold_kept l [] Hl (Forall_nil _)) as Hk.
  set (S' := fold_left (cleanStep false) l []) in *.
  destruct (cleanStep_cases e He') as [H|[->|Hp]].
  - now rewrite !H.
  - destruct S' as [|top below].
    + reflexivity.
    + inversion_clear Hk as [|? ? Htop _].
      destruct (keptElem_cases _ Htop) as [Hp| ->].
      * change (cleanStep false (top :: below) (str ".."))
          with (if str_eqb top (str "..") then str ".." :: top :: below
                else below).
        rewrite (properElem_not_dotdot _ Hp).
        cbn [rev]. rewrite fold_left_app. cbn [fold_left].
        rewrite (cleanStep_proper _ _ _ Hp).
        change (cleanStep true (top :: ?Y) (str ".."))
          with (if str_eqb top (str "..") then str ".." :: top :: Y else Y).
        now rewrite (properElem_not_dotdot _ Hp).
      * change (cleanStep false (str ".." :: below) (str ".."))
          with (str ".." :: str ".." :: below).
        cbn [rev]. rewrite !fold_left_app. reflexivity.
  - rewrite (cleanStep_proper false _ _ Hp). cbn [rev].
    rewrite fold_left_app. reflexivity.
Qed.

Lemma filepath_IsAbs_cons (c : ascii) (rest : gostring) :
  filepath_IsAbs (c :: rest) = isSlash c.
Proof.
  unfold filepath_IsAbs, HasPrefix, isSlash. cbn. apply andb_true_r.
Qed.

Lemma not_rooted_head (p : gostring) :
  filepath_IsAbs p = false ->
  p = [] \/ exists c rest, p = c :: rest /\ isSlash c = false.
Proof.
  destruct p as [|c rest]; [now left|]. right. exists c, rest.
  split; [reflexivity|]. now rewrite filepath_IsAbs_cons in H.
Qed.

(** [Clean] of a path that is not rooted: its kept elements, joined. *)
Lemma filepath_Clean_not_rooted (p : gostring) :
  filepath_IsAbs p = false ->
  filepath_Clean p
  = match cleanElems false p with
    | [] => str "."
    | elems => strings_Join elems [ch_slash]
    end.
Proof.
  intro H. destruct (not_rooted_head p H) as [->|(c & rest & -> & Hc)];
    [reflexivity|].
  unfold filepath_Clean. cbn zeta. rewrite Hc.
  now destruct (cleanElems false (c :: rest)).
Qed.

Lemma cleanElems_kept (p : gostring) :
  Forall (fun x => keptElem x = true) (cleanElems false p).
Proof.
  unfold cleanElems. apply Forall_rev. apply cleanFold_kept.
  - apply splitSlash_elems.
  - constructor.
Qed.

(** Reading a cleaned path after a rooted one is reading the path. *)
Lemma cleanFold_Clean (p : gostring) (st : list gostring) :
  filepath_IsAbs p = false ->
  fold_left (cleanStep true) (splitSlash (filepath_Clean p)) st
  = fold_left (cleanStep true) (splitSlash p) st.
Proof.
  intro H. rewrite (filepath_Clean_not_rooted p H).
  rewrite (cleanFold_agree (splitSlash p) st (splitSlash_elems p)).
  fold (cleanElems false p).
  pose proof (cleanElems_kept p) as Hk.
  destruct (cleanElems false p) as [|e rest] eqn:E; [reflexivity|].
  rewrite splitSlash_Join_noSlash; [reflexivity | | discriminate].
  eapply Forall_impl; [|exact Hk]. intros a. apply keptElem_noSlash.
Qed.

Lemma keptElem_head (e : gostring) :
  keptElem e = true -> exists c rest, e = c :: rest /\ isSlash c = false.
Proof.
  intro H. pose proof (keptElem_noSlash _ H) as Hs.
  destruct e as [|c rest].
  - destruct (keptElem_cases _ H) as [Hp|Hd]; discriminate.
  - exists c, rest. split; [reflexivity|]. cbn in Hs.
    apply andb_true_iff in Hs as [Hc _]. now apply negb_true_iff.
Qed.

(** [Clean] of a path that is not rooted is not rooted. *)
Lemma filepath_Clean_stays_relative (p : gostring) :
  filepath_IsAbs p = false -> filepath_IsAbs (filepath_Clean p) = false.
Proof.
  intro H. rewrite (filepath_Clean_not_rooted p H).
  pose proof (cleanElems_kept p) as Hk.
  destruct (cleanElems false p) as [|e rest]; [reflexivity|].
  inversion_clear Hk as [|? ? He _].
  destruct (keptElem_head _ He) as (c & r & -> & Hc).
  destruct rest; cbn [strings_Join app]; now rewrite filepath_IsAbs_cons.
Qed.

Lemma filepath_Clean_nonempty (p : gostring) : filepath_Clean p <> [].
Proof.
  destruct (filepath_IsAbs p) eqn:H.
  - apply HasPrefix_slash in H as [rest ->]. discriminate.
  - rewrite (filepath_Clean_not_rooted p H).
    pose proof (cleanElems_kept p) as Hk.
    destruct (cleanElems false p) as [|e rest]; [discriminate|].
    inversion_clear Hk as [|? ? He _].
    destruct (keptElem_head _ He) as (c & r & -> & _).
    destruct rest; discriminate.
Qed.

(** [Clean] of a rooted path, by the elements read after the slash. *)
Lemma filepath_Clean_rooted_elems (rest : gostring) :
  filepath_Clean (ch_slash :: rest)
  = rootedPath (rev (fold_left (cleanStep true) (splitSlash rest) [])).
Proof. reflexivity. Qed.

(** Joining a path to a rooted one. *)
Lemma filepath_Join_to_rooted (rw q : gostring) :
  filepath_Join [ch_slash :: rw; q]
  = rootedPath
      (rev (fold_left (cleanStep true) (splitSlash q)
              (fold_left (cleanStep true) (splitSlash rw) []))).
Proof.
  cbn [filepath_Join strings_Join].
  change ((ch_slash :: rw) ++ [ch_slash] ++ q)
    with (ch_slash :: (rw ++ ch_slash :: q)).
  rewrite filepath_Clean_rooted_elems, splitSlash_app, fold_left_app.
  reflexivity.
Qed.

Lemma cleanFold_name (dir name : gostring) (st : list gostring) :
  properElem name = true ->
  fold_left (cleanStep true) (splitSlash (dir ++ ch_slash :: name)) st
  = name :: fold_left (cleanStep true) (splitSlash dir) st.
Proof.
  intro Hn. rewrite splitSlash_app, fold_left_app.
  rewrite (splitSlash_noSlash name (properElem_noSlash _ Hn)).
  cbn [fold_left]. now apply cleanStep_proper.
Qed.

Lemma filepath_Clean_rootedPath (elems : list gostring) :
  Forall (fun e => properElem e = true) elems ->
  filepath_Clean (rootedPath elems) = rootedPath elems.
Proof.
  intro He. unfold rootedPath at 1. rewrite filepath_Clean_rooted_elems.
  f_equal. destruct elems as [|e rest]; [reflexivity|].
  rewrite splitSlash_Join by (assumption || discriminate).
  rewrite cleanFold_proper by assumption.
  now rewrite app_nil_r, rev_involutive.
Qed.

(** A clean rooted path has one list of elements. *)
Lemma rootedPath_inj (e1 e2 : list gostring) :
  Forall (fun e => properElem e = true) e1 ->
  Forall (fun e => properElem e = true) e2 ->
  rootedPath e1 = rootedPath e2 -> e1 = e2.
Proof.
  intros H1 H2 H. injection H as H.
  assert (Hne : forall l, Forall (fun e => properElem e = true) l ->
                  l <> [] -> strings_Join l [ch_slash] <> []).
  { intros l Hl Hn E.
    destruct l as [|e rest]; [congruence|]. inversion_clear Hl as [|? ? He _].
    destruct e as [|c e]; [discriminate He|]. destruct rest; discriminate. }
  destruct e1 as [|a1 r1], e2 as [|a2 r2]; [reflexivity | | |].
  - exfalso. apply (Hne (a2 :: r2)); [assumption | discriminate | now symmetry].
  - exfalso. apply (Hne (a1 :: r1)); [assumption | discriminate | assumption].
  - rewrite <- (splitSlash_Join (a1 :: r1)), <- (splitSlash_Join (a2 :: r2))
      by (assumption || discriminate).
    now rewrite H.
Qed.

(** The path [lsdir] joins for an entry of a directory that is not
    rooted is the cleaning of a path that is not rooted. *)
Lemma filepath_Join_entry (dir name : gostring) :
  properElem name = true -> filepath_IsAbs dir = false ->
  exists p, filepath_Join [dir; name] = filepath_Clean p
    /\ filepath_IsAbs p = false
    /\ forall st, fold_left (cleanStep true) (splitSlash p) st
         = name :: fold_left (cleanStep true) (splitSlash dir) st.
Proof.
  intros Hn Hdir. destruct dir as [|c dir'].
  - exists name. destruct (keptElem_head name) as (c & r & -> & Hc);
      [unfold keptElem; now rewrite Hn|].
    split; [reflexivity|]. split.
    + now rewrite filepath_IsAbs_cons.
    + intro st.
      rewrite (splitSlash_noSlash _ (properElem_noSlash _ Hn)).
      cbn [fold_left splitSlash].
      change (cleanStep true st []) with st.
      now apply cleanStep_proper.
  - exists ((c :: dir') ++ ch_slash :: name).
    split; [reflexivity|]. split.
    + cbn [app]. rewrite filepath_IsAbs_cons in *. exact Hdir.
    + intro st. now apply cleanFold_name.
Qed.

(** The absolute path of an entry of a directory is the directory's
    absolute path with the entry's name as one more element. *)
Lemma filepath_Abs_entry (env : Env) (dir name : gostring)
  (elems : list gostring) :
  rootedWd env -> properElem name = true ->
  Forall (fun e => properElem e = true) elems ->
  filepath_Abs env dir = inl (rootedPath elems) ->
  filepath_Abs env (filepath_Join [dir; name])
  = inl (rootedPath (elems ++ [name])).
Proof.
  intros Hwd Hn He Habs. unfold filepath_Abs in Habs.
  destruct (filepath_IsAbs dir) eqn:Hdir.
  - (* a rooted directory *)
    destruct (HasPrefix_slash _ Hdir) as [r ->].
    assert (Hc : filepath_Clean (ch_slash :: r) = rootedPath elems)
      by exact (f_equal (fun x : gostring + GoError =>
                            match x with inl y => y | inr _ => [] end) Habs).
    clear Habs. rename Hc into Habs.
    rewrite filepath_Clean_rooted_elems in Habs.
    assert (HJ : filepath_Join [ch_slash :: r; name]
                 = rootedPath (elems ++ [name])).
    { rewrite filepath_Join_to_rooted.
      rewrite (splitSlash_noSlash name (properElem_noSlash _ Hn)).
      cbn [fold_left]. rewrite (cleanStep_proper _ _ _ Hn). cbn [rev].
      f_equal. f_equal. apply rootedPath_inj; [| exact He | exact Habs].
      apply Forall_rev, cleanFold_keeps_proper;
        [apply splitSlash_elems | constructor]. }
    transitivity (filepath_Abs env (rootedPath (elems ++ [name])));
      [f_equal; exact HJ|].
    unfold filepath_Abs.
    change (filepath_IsAbs (rootedPath (elems ++ [name]))) with true.
    cbn iota. f_equal. apply filepath_Clean_rootedPath.
    apply Forall_app. split; [exact He | now repeat constructor].
  - (* a directory named from the working directory *)
    destruct (os_Getwd env) as [wd|err] eqn:Hg; [|discriminate].
    destruct (HasPrefix_slash wd (Hwd wd Hg)) as [rw ->].
    assert (Hc : filepath_Join [ch_slash :: rw; dir] = rootedPath elems)
      by exact (f_equal (fun x : gostring + GoError =>
                            match x with inl y => y | inr _ => [] end) Habs).
    clear Habs. rename Hc into Habs.
    rewrite filepath_Join_to_rooted in Habs.
    set (W := fold_left (cleanStep true) (splitSlash rw) []) in *.
    assert (Hel : elems = rev (fold_left (cleanStep true) (splitSlash dir) W)).
    { symmetry. apply rootedPath_inj; [| exact He | exact Habs].
      apply Forall_rev, cleanFold_keeps_proper; [apply splitSlash_elems|].
      apply cleanFold_keeps_proper; [apply splitSlash_elems | constructor]. }
    destruct (filepath_Join_entry dir name Hn Hdir) as (p & HJ & Hp & Hfold).
    transitivity (filepath_Abs env (filepath_Clean p)); [f_equal; exact HJ|].
    unfold filepath_Abs.
    rewrite (filepath_Clean_stays_relative p Hp), Hg.
    rewrite filepath_Join_to_rooted. fold W.
    rewrite (cleanFold_Clean p W Hp), Hfold, Hel. reflexivity.
Qed.

(** Where the path of an entry resolves, the directory's path resolves. *)
Lemma filepath_Abs_entry_dir (env : Env) (dir name path : gostring) :
  properElem name = true ->
  filepath_Abs env (filepath_Join [dir; name]) = inl path ->
  exists resultPath, filepath_Abs env dir = inl resultPath.
Proof.
  intros Hn H. unfold filepath_Abs at 1.
  destruct (filepath_IsAbs dir) eqn:Hdir; [now eexists|].
  destruct (os_Getwd env) as [wd|err] eqn:Hg; [now eexists|]. exfalso.
  destruct (filepath_Join_entry dir name Hn Hdir) as (p & HJ & Hp & _).
  assert (E : filepath_Abs env (filepath_Join [dir; name])
              = filepath_Abs env (filepath_Clean p)) by (f_equal; exact HJ).
  rewrite E in H. unfold filepath_Abs in H.
  rewrite (filepath_Clean_stays_relative p Hp), Hg in H. discriminate.
Qed.

(* ----------------------------------------------------------------- *)
(** ** What [lsdir] returns and when it panics *)

Lemma mapOrPanic_panicked (A B : Type) (f : A -> B + GoError) (l : list A)
  (w w' : World) (p : PanicValue) :
  mapOrPanic f l w = (Panicked p, w') ->
  w' = w /\ exists x e, In x l /\ f x = inr e /\ p = PanicError e.
Proof.
  induction l as [|x l IH]; cbn; [discriminate|].
  destruct (f x) as [y|e] eqn:E.
  - unfold bind. destruct (mapOrPanic f l w) as [[ys|q] w1] eqn:Em;
      [discriminate|].
    intros [= <- <-]. destruct (IH eq_refl) as (-> & x' & e & Hin & Hf & ->).
    split; [reflexivity|]. exists x', e. auto.
  - intros [= <- <-]. split; [reflexivity|]. exists x, e. auto.
Qed.

Lemma selectFiles_names (entries : list FileInfo) (exts : list gostring)
  (name : gostring) :
  In name (selectFiles entries exts) ->
  exists elem, In elem entries /\ Name elem = name.
Proof.
  intro H. apply selectFiles_spec in H as (elem & Hin & Hn & _).
  now exists elem.
Qed.

(** The paths [lsdir] returns, from the names it sorted. *)
Lemma lsdir_returned (env : Env) (dir : gostring) (exts : list gostring)
  (w w' : World) (paths : list gostring) :
  rootedWd env -> properEntries env ->
  lsdir env dir exts w = (Returned paths, w') ->
  w' = w
  /\ exists entries,
       os_ReadDir env dir = inl entries
       /\ ((selectFiles entries exts = [] /\ paths = [])
           \/ exists elems,
                Forall (fun e => properElem e = true) elems
                /\ filepath_Abs env dir = inl (rootedPath elems)
                /\ paths = map (fun name => rootedPath (elems ++ [name]))
                             (sortSlice lessByName (selectFiles entries exts))).
Proof.
  intros Hwd Hent H. unfold lsdir in H.
  destruct (os_ReadDir env dir) as [entries|err] eqn:Hdir; [|discriminate].
  apply mapOrPanic_returned in H as [-> HF].
  split; [reflexivity|]. exists entries. split; [reflexivity|].
  set (names := sortSlice lessByName (selectFiles entries exts)) in *.
  assert (Hproper : Forall (fun name => properElem name = true) names).
  { apply Forall_forall. intros name Hin.
    apply (Permutation_in _ (Permutation_sym (sortSlice_perm _ lessByName _)))
      in Hin.
    apply selectFiles_names in Hin as (elem & Hin & <-).
    pose proof (Hent dir entries Hdir) as Hall.
    rewrite Forall_forall in Hall. now apply Hall. }
  destruct names as [|name0 names'] eqn:En.
  - left. split; [|now inversion HF].
    apply Permutation_nil. rewrite <- En. apply Permutation_sym.
    apply sortSlice_perm.
  - right. rewrite <- En in *.
    assert (Hres : exists resultPath, filepath_Abs env dir = inl resultPath).
    { rewrite En in HF, Hproper. inversion_clear HF as [|? ? ? ? H0 _].
      inversion_clear Hproper as [|? ? Hn _].
      now apply (filepath_Abs_entry_dir env dir name0 y). }
    destruct Hres as [resultPath Hres].
    destruct (filepath_Abs_rooted env dir resultPath Hwd Hres)
      as (elems & He & ->).
    exists elems. split; [exact He|]. split; [exact Hres|].
    clear En. induction HF as [|name path names0 paths0 H0 _ IH];
      [reflexivity|].
    inversion_clear Hproper as [|? ? Hn Hrest].
    cbn [map]. rewrite <- (IH Hrest). f_equal.
    rewrite (filepath_Abs_entry env dir name elems Hwd Hn He Hres) in H0.
    now injection H0.
Qed.



Lemma filepath_Abs_error (env : Env) (path : gostring) (e : GoError) :
  filepath_Abs env path = inr e ->
  filepath_IsAbs path = false /\ os_Getwd env = inr e.
Proof.
  unfold filepath_Abs. destruct (filepath_IsAbs path); [discriminate|].
  destruct (os_Getwd env); [discriminate|]. now intros [= ->].
Qed.

(** X5: [lsdir] panics only with the error of [ReadDir], or with the error
    of [Getwd] when some entry is selected and the working directory
    cannot be told; it panics with the error of [ReadDir] whenever the
    directory cannot be read; and a panic leaves the world untouched. *)
Theorem lsdir_panics_with_system_error :
  forall (env : Env) (dir : gostring) (exts : list gostring) (w : World),
    (forall e, os_ReadDir env dir = inr e ->
       lsdir env dir exts w = (Panicked (PanicError e), w))
    /\ (forall p w',
          lsdir env dir exts w = (Panicked p, w') ->
          w' = w
          /\ exists e, p = PanicError e
               /\ (os_ReadDir env dir = inr e
                   \/ (os_Getwd env = inr e
                       /\ exists entries,
                            os_ReadDir env dir = inl entries
                            /\ selectFiles entries exts <> []))).
Proof.
  intros env dir exts w. split.
  - intros e He. unfold lsdir. now rewrite He.
  - intros p w' H. unfold lsdir in H.
    destruct (os_ReadDir env dir) as [entries|err] eqn:Hdir.
    + apply mapOrPanic_panicked in H as (-> & name & e & Hin & Hf & ->).
      split; [reflexivity|]. exists e. split; [reflexivity|]. right.
      apply filepath_Abs_error in Hf as [_ Hg]. split; [exact Hg|].
      exists entries. split; [reflexivity|]. intro Hsel.
      rewrite Hsel in Hin. exact Hin.
    + injection H as <- <-. split; [reflexivity|]. exists err. auto.
Qed.

Lemma lsdir_panics_with_system_error_witness :
  lsdir {| os_ReadDir := fun _ => inr (str "no such directory");
           os_Getwd := inl (str "/x/y");
           os_Open := fun _ => None;
           image_DecodeConfig := fun _ => inl (100%Z, 200%Z);
           strings_ToUpper := fun s => s;
           gofpdf_registerImage := fun _ _ => None;
           os_Create := fun _ => None |}
    (str "photos") imageFormats initWorld
  = (Panicked (PanicError (str "no such directory")), initWorld).
Proof.
  apply (proj1 (lsdir_panics_with_system_error _ (str "photos") imageFormats
                  initWorld) (str "no such directory")).
  reflexivity.
Defined.

(** X6: the scanner never selects the file the program writes: a name
    that ends with .pdf ends with none of png, jpg, jpeg, gif, so a run on
    a directory that holds the output of an earlier run does not take it
    for an image. *)
Theorem output_pdf_is_not_selected :
  forall (entries : list FileInfo) (base : gostring),
    any (base ++ str ".pdf") imageFormats HasSuffix = false
    /\ ~ In (base ++ str ".pdf") (selectFiles entries imageFormats).
Proof.
  intros entries base.
  assert (H : forall ext p, In ext imageFormats ->
                base ++ str ".pdf" <> p ++ ext).
  { intros ext p Hin E. apply (f_equal (@rev ascii)) in E.
    rewrite !rev_app_distr in E.
    cbn in Hin. destruct Hin as [<-|[<-|[<-|[<-|[]]]]]; cbn in E;
      discriminate E. }
  split.
  - destruct (any (base ++ str ".pdf") imageFormats HasSuffix) eqn:E;
      [|reflexivity].
    apply any_spec in E as (ext & Hin & Hs).
    apply HasSuffix_spec in Hs as [p Hp]. now apply H in Hp.
  - intro Hin. apply selectFiles_spec in Hin
      as (elem & _ & _ & _ & ext & p & Hext & Hp).
    now apply H in Hp.
Qed.

(* ----------------------------------------------------------------- *)
(** ** What a run of [processImages] leaves behind *)

Lemma onDoc_keeps (p : nat) (f : Fpdf -> Fpdf) (w w' : World)
  (o : Outcome unit) :
  onDoc p f w = (o, w') -> files w' = files w /\ stdout w' = stdout w.
Proof.
  unfold onDoc. destruct (nth_error (docs w) p); intros [= _ <-]; now cbn.
Qed.

(** Adding an image, however it ends, writes no file and prints nothing. *)
Lemma addImagePage_keeps (env : Env) (p : nat) (imagepath : gostring)
  (w w' : World) (o : Outcome unit) :
  addImagePage env p imagepath w = (o, w') ->
  files w' = files w /\ stdout w' = stdout w.
Proof.
  unfold addImagePage, bind.
  destruct (getImageSize env imagepath w) as [[[imageW imageH]|q] w1] eqn:E;
    apply getImageSize_world in E as ->; [|now intros [= _ <-]].
  destruct (optimalPageSize a4Width a4Height imageW imageH) as [resW resH].
  destruct (path_Ext imagepath) as [|c ext1]; [now intros [= _ <-]|].
  destruct (onDoc p _ w) as [[[]|q] w2] eqn:E2;
    apply onDoc_keeps in E2 as [Hf2 Hs2].
  - intro E3. apply onDoc_keeps in E3 as [Hf3 Hs3]. split; congruence.
  - intros [= _ <-]. now split.
Qed.

Lemma addImagePages_keep (env : Env) (p : nat) (paths : list gostring)
  (w w' : World) (o : Outcome unit) :
  forRange paths (fun elem => addImagePage env p elem) w = (o, w') ->
  files w' = files w /\ stdout w' = stdout w.
Proof.
  revert w. induction paths as [|x paths IH]; intro w; cbn.
  - now intros [= _ <-].
  - unfold bind.
    destruct (addImagePage env p x w) as [[[]|q] w1] eqn:E;
      apply addImagePage_keeps in E as [Hf Hs].
    + intro H. apply IH in H as [Hf' Hs']. split; congruence.
    + intros [= _ <-]. now split.
Qed.

(** The three stages of [processImages] on a list that is not empty. *)
Lemma processImages_stages (env : Env) (first : gostring)
  (rest : list gostring) (saveAs : gostring) (w : World) :
  processImages env (first :: rest) saveAs w
  = bind (getImageSize env first)
      (fun size =>
         bind (createDocument (optimalPageSize a4Width a4Height
                                 (fst size) (snd size)))
           (fun pdf =>
              bind (forRange (first :: rest)
                      (fun elem => addImagePage env pdf elem))
                (fun _ =>
                   bind (OutputFileAndClose env pdf saveAs)
                     (fun err =>
                        match err with
                        | Some e => printOut (str "Error writing pdf: " ++ e)
                        | None => ret tt
                        end)))) w.
Proof.
  unfold processImages, bind.
  destruct (getImageSize env first w) as [[[firstW firstH]|q] w1];
    reflexivity.
Qed.

Lemma createDocument_run (size : float * float) (w : World) :
  createDocument size w
  = (Returned (length (docs w)),
     {| docs := docs w
                ++ [ {| fpdfErr := None;
                        initSize := {| Wd := fst size; Ht := snd size |};
                        pages := [] |} ];
        files := files w; stdout := stdout w |}).
Proof. now destruct size. Qed.

Lemma processImages_panicked (env : Env) (paths : list gostring)
  (saveAs : gostring) (w w' : World) (p : PanicValue) :
  processImages env paths saveAs w = (Panicked p, w') ->
  files w' = files w /\ stdout w' = stdout w.
Proof.
  destruct paths as [|first rest]; [now intros [= _ <-]|].
  rewrite processImages_stages. unfold bind.
  destruct (getImageSize env first w) as [[size|q] w1] eqn:E1;
    apply getImageSize_world in E1 as ->; [|now intros [= _ <-]].
  rewrite createDocument_run.
  match goal with
  | |- context [forRange ?l ?b ?w0] =>
      destruct (forRange l b w0) as [[[]|q] w3] eqn:E3;
      apply addImagePages_keep in E3 as [Hf3 Hs3]; cbn in Hf3, Hs3
  end; [|intros [= _ <-]; now split].
  unfold OutputFileAndClose.
  destruct (nth_error (docs w3) (length (docs w))) as [d|];
    [|intros [= _ <-]; now split].
  destruct (fpdfErr d); [discriminate|].
  destruct (os_Create env saveAs); discriminate.
Qed.

(** X7: a run of [processImages] that panics has written no file and
    printed nothing. *)
Theorem panicking_run_writes_nothing :
  forall (env : Env) (paths : list gostring) (saveAs : gostring)
    (w w' : World) (p : PanicValue),
    processImages env paths saveAs w = (Panicked p, w') ->
    files w' = files w /\ stdout w' = stdout w.
Proof. exact processImages_panicked. Qed.

Lemma panicking_run_writes_nothing_witness :
  files (snd (processImages (demoEnv []) [str "/x/y/photos/mypng"]
                (str "/x/y/photos/photos.pdf") initWorld)) = files initWorld
  /\ stdout (snd (processImages (demoEnv []) [str "/x/y/photos/mypng"]
                    (str "/x/y/photos/photos.pdf") initWorld))
     = stdout initWorld.
Proof.
  apply (panicking_run_writes_nothing (demoEnv []) [str "/x/y/photos/mypng"]
           (str "/x/y/photos/photos.pdf") initWorld _ PanicSliceBounds).
  vm_compute. reflexivity.
Defined.

(** On an image that does not open, does not decode or has no extension,
    [addImagePage] panics. *)
Lemma addImagePage_unusable (env : Env) (p : nat) (imagepath : gostring)
  (w : World) :
  unusable env imagepath ->
  exists q w', addImagePage env p imagepath w = (Panicked q, w').
Proof.
  intro H. unfold addImagePage, bind, getImageSize.
  destruct (os_Open env imagepath) as [e|] eqn:Eo; [now eexists; eexists|].
  destruct (image_DecodeConfig env imagepath) as [[width height]|e] eqn:Ed;
    [|now eexists; eexists].
  unfold ret.
  destruct (optimalPageSize a4Width a4Height _ _) as [resW resH].
  destruct H as [[e He]|[[e He]|He]]; [congruence | congruence |].
  rewrite He. now eexists; eexists.
Qed.

Lemma forRange_panics (A : Type) (l : list A) (body : A -> Run unit) (x : A) :
  In x l -> (forall w, exists q w', body x w = (Panicked q, w')) ->
  forall w, exists q w', forRange l body w = (Panicked q, w').
Proof.
  intros Hin Hx. induction l as [|y l IH]; [destruct Hin|]. intro w.
  cbn. unfold bind. destruct (body y w) as [[[]|q] w1] eqn:E.
  - destruct Hin as [->|Hin].
    + destruct (Hx w) as (q & w' & Hq). congruence.
    + apply (IH Hin).
  - now exists q, w1.
Qed.

Lemma processImages_unusable (env : Env) (paths : list gostring)
  (saveAs path : gostring) (w : World) :
  In path paths -> unusable env path ->
  exists p w',
    processImages env paths saveAs w = (Panicked p, w')
    /\ files w' = files w.
Proof.
  intros Hin Hbad.
  assert (H : exists p w', processImages env paths saveAs w = (Panicked p, w')).
  { destruct paths as [|first rest]; [destruct Hin|].
    rewrite processImages_stages. unfold bind.
    destruct (getImageSize env first w) as [[size|q] w1];
      [|now eexists; eexists].
    rewrite createDocument_run.
    match goal with
    | |- context [forRange ?l ?b ?w0] =>
        destruct (forRange_panics _ l b path Hin
                    (fun w2 => addImagePage_unusable env _ path w2 Hbad) w0)
          as (q & w3 & ->)
    end.
    now eexists; eexists. }
  destruct H as (p & w' & H). exists p, w'. split; [exact H|].
  now apply processImages_panicked in H.
Qed.

(** X8: one unusable image aborts the run: when some path of the list does
    not open, does not decode as an image or has no extension,
    [processImages] panics, and no file is written. *)
Theorem unusable_image_aborts_run :
  forall (env : Env) (paths : list gostring) (saveAs path : gostring)
    (w : World),
    In path paths -> unusable env path ->
    exists p w',
      processImages env paths saveAs w = (Panicked p, w')
      /\ files w' = files w.
Proof. exact processImages_unusable. Qed.

Lemma unusable_image_aborts_run_witness :
  exists p w',
    processImages (demoEnv [])
      [str "/x/y/photos/a.png"; str "/x/y/photos/mypng"]
      (str "/x/y/photos/photos.pdf") initWorld = (Panicked p, w')
    /\ files w' = files initWorld.
Proof.
  apply (unusable_image_aborts_run (demoEnv [])
           [str "/x/y/photos/a.png"; str "/x/y/photos/mypng"]
           (str "/x/y/photos/photos.pdf") (str "/x/y/photos/mypng") initWorld).
  - right. now left.
  - right. right. reflexivity.
Defined.

(* ----------------------------------------------------------------- *)
(** ** The pages of the document *)

Lemma getImageSize_returned (env : Env) (imagepath : gostring) (w w' : World)
  (size : float * float) :
  getImageSize env imagepath w = (Returned size, w') ->
  os_Open env imagepath = None
  /\ exists width height,
       image_DecodeConfig env imagepath = inl (width, height)
       /\ size = (float64_of_int width, float64_of_int height).
Proof.
  unfold getImageSize.
  destruct (os_Open env imagepath); [discriminate|].
  destruct (image_DecodeConfig env imagepath) as [[width height]|e];
    [|discriminate].
  intros [= <- _]. split; [reflexivity|]. now exists width, height.
Qed.

(** A page and its image, in full: unless the document carries an error
    afterwards, it has exactly one page more, of the given size, with the
    image drawn from the origin over that size. *)
Lemma draw_image_exact (env : Env) (file : gostring) (size : SizeType)
  (imageType : gostring) (d : Fpdf) :
  let d' := ImageOptions env file 0 0 (Wd size) (Ht size) imageType
              (AddPageFormat size d) in
  fpdfErr d' = None ->
  fpdfErr d = None /\ initSize d' = initSize d
  /\ pages d'
     = pages d
       ++ [ {| pageSize := size;
               pageImages := [ {| imgFile := file; imgX := 0; imgY := 0;
                                  imgW := Wd size; imgH := Ht size;
                                  imgType := imageType |} ] |} ].
Proof.
  unfold ImageOptions, AddPageFormat.
  destruct (fpdfErr d) as [e|] eqn:E; cbn.
  - rewrite E. now rewrite E.
  - destruct (gofpdf_registerImage env file imageType); cbn; [discriminate|].
    intros _. repeat split. now rewrite placeOnLast_last.
Qed.

Lemma addImagePage_returned_exact (env : Env) (p : nat) (imagepath : gostring)
  (w w' : World) (d : Fpdf) :
  nth_error (docs w) p = Some d ->
  addImagePage env p imagepath w = (Returned tt, w') ->
  exists d', nth_error (docs w') p = Some d'
    /\ (fpdfErr d' = None ->
        fpdfErr d = None /\ initSize d' = initSize d
        /\ exists pg, fittedPage env imagepath = Some pg
             /\ pages d' = pages d ++ [pg]).
Proof.
  intros Hd H. unfold addImagePage in H.
  apply bind_returned in H as ([imageW imageH] & w1 & H1 & H2).
  pose proof (getImageSize_world _ _ _ _ _ H1) as ->.
  apply getImageSize_returned in H1
    as (_ & width & height & Hdec & [= -> ->]).
  unfold fittedPage. rewrite Hdec.
  destruct (optimalPageSize a4Width a4Height _ _) as [resW resH].
  destruct (path_Ext imagepath) as [|c ext1]; [discriminate|].
  apply bind_returned in H2 as ([] & w2 & H2 & H3).
  destruct (onDoc_returned _ _ _ _ _ Hd H2) as [Hd2 _].
  destruct (onDoc_returned _ _ _ _ _ Hd2 H3) as [Hd3 _].
  eexists. split; [exact Hd3|]. intro He.
  destruct (draw_image_exact env imagepath {| Wd := resW; Ht := resH |}
              (strings_ToUpper env ext1) d He) as (He0 & Hi & Hp).
  split; [exact He0|]. split; [exact Hi|].
  eexists. split; [reflexivity | exact Hp].
Qed.

Lemma addImagePages_returned_exact (env : Env) (p : nat)
  (paths : list gostring) (w w' : World) (d : Fpdf) :
  nth_error (docs w) p = Some d ->
  forRange paths (fun elem => addImagePage env p elem) w = (Returned tt, w') ->
  exists d', nth_error (docs w') p = Some d'
    /\ (fpdfErr d' = None ->
        fpdfErr d = None /\ initSize d' = initSize d
        /\ map Some (pages d')
           = map Some (pages d) ++ map (fittedPage env) paths).
Proof.
  revert w d. induction paths as [|x paths IH]; intros w d Hd H; cbn in H.
  - injection H as <-. exists d. split; [exact Hd|].
    intros He. now rewrite app_nil_r.
  - apply bind_returned in H as ([] & w1 & H1 & H2).
    destruct (addImagePage_returned_exact _ _ _ _ _ _ Hd H1)
      as (d1 & Hd1 & P1).
    destruct (IH _ _ Hd1 H2) as (d2 & Hd2 & P2).
    exists d2. split; [exact Hd2|]. intro He.
    destruct (P2 He) as (He1 & Hi2 & Hp2).
    destruct (P1 He1) as (He0 & Hi1 & pg & Hpg & Hp1).
    split; [exact He0|]. split; [congruence|].
    rewrite Hp2, Hp1, map_app, <- app_assoc. cbn. now rewrite Hpg.
Qed.

(** A run of [processImages] that returns has either written nothing and
    printed the error, or written one file, the document with the fitted
    pages of the paths, created with the size of its first page. *)
Lemma processImages_returned_exact (env : Env) (paths : list gostring)
  (saveAs : gostring) (w w' : World) :
  processImages env paths saveAs w = (Returned tt, w') ->
  (files w' = files w
   /\ exists e, stdout w' = stdout w ++ [str "Error writing pdf: " ++ e])
  \/ (exists d,
        files w' = files w ++ [(saveAs, d)] /\ stdout w' = stdout w
        /\ map Some (pages d) = map (fittedPage env) paths
        /\ exists pg rest, pages d = pg :: rest /\ initSize d = pageSize pg).
Proof.
  destruct paths as [|first rest]; [discriminate|].
  rewrite processImages_stages. intro H.
  apply bind_returned in H as (size & w1 & H1 & H).
  pose proof (getImageSize_world _ _ _ _ _ H1) as ->.
  apply getImageSize_returned in H1 as (_ & width & height & Hdec & ->).
  apply bind_returned in H as (pdf & w2 & H2 & H).
  rewrite createDocument_run in H2. cbn [fst snd] in H2.
  destruct (optimalPageSize a4Width a4Height (float64_of_int width)
              (float64_of_int height)) as [resW resH] eqn:Eo.
  injection H2 as <- <-.
  apply bind_returned in H as ([] & w3 & H3 & H).
  pose proof (addImagePages_keep _ _ _ _ _ _ H3) as [Hf3 Hs3].
  cbn [files stdout] in Hf3, Hs3.
  eapply addImagePages_returned_exact in H3;
    [|cbn [docs]; now rewrite nth_error_app2, Nat.sub_diag by lia].
  destruct H3 as (d3 & Hd3 & P3). cbn [fpdfErr initSize pages map app] in P3.
  apply bind_returned in H as (err & w4 & H4 & H).
  unfold OutputFileAndClose in H4. rewrite Hd3 in H4.
  destruct (fpdfErr d3) as [e|] eqn:E3.
  - injection H4 as <- <-. injection H as <-. cbn [files stdout].
    left. split; [exact Hf3|]. exists e. now rewrite Hs3.
  - destruct (P3 eq_refl) as (_ & Hi & Hp).
    destruct (os_Create env saveAs) as [e|].
    + injection H4 as <- <-. injection H as <-. cbn [files stdout].
      left. split; [exact Hf3|]. exists e. now rewrite Hs3.
    + injection H4 as <- <-. injection H as <-. cbn [files stdout].
      right. exists d3. rewrite Hf3, Hs3. repeat split; [exact Hp|].
      destruct (pages d3) as [|pg prest]; [discriminate Hp|].
      exists pg, prest. split; [reflexivity|].
      cbn [map] in Hp. injection Hp as Hpg _.
      unfold fittedPage in Hpg. rewrite Hdec, Eo in Hpg.
      rewrite Hi. cbn [fst snd].
      destruct (path_Ext first); [discriminate|].
      injection Hpg as ->. reflexivity.
Qed.


(** X10: the document a run writes consists of the fitted pages of the
    paths, in the order of the paths: page k has the fitted size of image
    k's header dimensions for the template 210 x 297 and shows image k,
    with the upper-cased extension as its type. *)
Theorem written_pages_are_fitted_pages :
  forall (env : Env) (paths : list gostring) (saveAs : gostring)
    (w w' : World) (d : Fpdf),
    processImages env paths saveAs w = (Returned tt, w') ->
    files w' = files w ++ [(saveAs, d)] ->
    map Some (pages d) = map (fittedPage env) paths.
Proof.
  intros env paths saveAs w w' d H Hf.
  apply processImages_returned_exact in H
    as [[Hf' _]|(d' & Hf' & _ & Hp & _)].
  - exfalso. rewrite Hf' in Hf.
    apply (f_equal (@length (gostring * Fpdf))) in Hf.
    rewrite length_app in Hf. cbn in Hf. lia.
  - rewrite Hf' in Hf. apply app_inv_head in Hf. now injection Hf as <-.
Qed.




Lemma written_pages_are_fitted_pages_witness :
  exists d,
    map Some (pages d)
    = map (fittedPage (demoEnv []))
        [str "/x/y/photos/amt2.png"; str "/x/y/photos/amt10.png"].
Proof.
  eexists.
  eapply (written_pages_are_fitted_pages (demoEnv [])
            [str "/x/y/photos/amt2.png"; str "/x/y/photos/amt10.png"]
            (str "/x/y/photos/photos.pdf") initWorld).
  - vm_compute. reflexivity.
  - vm_compute. reflexivity.
Defined.


(* ----------------------------------------------------------------- *)
(** ** Runs that succeed *)

Lemma onDoc_run (p : nat) (f : Fpdf -> Fpdf) (w : World) (d : Fpdf) :
  nth_error (docs w) p = Some d ->
  onDoc p f w
  = (Returned tt,
     {| docs := replaceNth p (f d) (docs w); files := files w;
        stdout := stdout w |}).
Proof. intro H. unfold onDoc. now rewrite H. Qed.

Lemma addImagePage_addable (env : Env) (p : nat) (imagepath : gostring)
  (w : World) (d : Fpdf) :
  addable env imagepath ->
  nth_error (docs w) p = Some d -> fpdfErr d = None ->
  exists w' d',
    addImagePage env p imagepath w = (Returned tt, w')
    /\ nth_error (docs w') p = Some d' /\ fpdfErr d' = None.
Proof.
  intros (Ho & [[width height] Hdec] & c & ext1 & Hext & Hreg) Hd He.
  unfold addImagePage, bind, getImageSize. rewrite Ho, Hdec. unfold ret.
  cbn beta iota.
  destruct (optimalPageSize a4Width a4Height _ _) as [resW resH].
  rewrite Hext. rewrite (onDoc_run _ _ _ _ Hd).
  erewrite onDoc_run;
    [|cbn [docs]; eapply nth_error_replaceNth; exact Hd].
  eexists. eexists. split; [reflexivity|]. cbn [docs]. split.
  - eapply nth_error_replaceNth. eapply nth_error_replaceNth. exact Hd.
  - unfold ImageOptions, AddPageFormat. rewrite He. cbn. now rewrite Hreg.
Qed.

Lemma addImagePages_addable (env : Env) (p : nat) (paths : list gostring)
  (w : World) (d : Fpdf) :
  Forall (addable env) paths ->
  nth_error (docs w) p = Some d -> fpdfErr d = None ->
  exists w' d',
    forRange paths (fun elem => addImagePage env p elem) w = (Returned tt, w')
    /\ nth_error (docs w') p = Some d' /\ fpdfErr d' = None.
Proof.
  intro H. revert w d. induction H as [|x paths Hx _ IH]; intros w d Hd He.
  - exists w, d. now repeat split.
  - destruct (addImagePage_addable env p x w d Hx Hd He)
      as (w1 & d1 & H1 & Hd1 & He1).
    destruct (IH w1 d1 Hd1 He1) as (w2 & d2 & H2 & Hd2 & He2).
    exists w2, d2. cbn. unfold bind. rewrite H1. auto.
Qed.



(** X18: when every image can be added but the output file cannot be
    created, [processImages] does not panic: it returns, writes nothing
    and prints "Error writing pdf: " followed by the error. *)
Theorem write_error_is_reported :
  forall (env : Env) (paths : list gostring) (saveAs : gostring) (w : World)
    (e : GoError),
    paths <> [] -> Forall (addable env) paths ->
    os_Create env saveAs = Some e ->
    exists w',
      processImages env paths saveAs w = (Returned tt, w')
      /\ files w' = files w
      /\ stdout w' = stdout w ++ [str "Error writing pdf: " ++ e].
Proof.
  intros env paths saveAs w e Hne Hall Hcreate.
  destruct paths as [|first rest]; [congruence|].
  rewrite processImages_stages. unfold bind.
  pose proof Hall as Hall'. inversion_clear Hall' as [|? ? Hfirst _].
  destruct Hfirst as (Ho & [[width height] Hdec] & _).
  unfold getImageSize at 1. rewrite Ho, Hdec. unfold ret at 1.
  rewrite createDocument_run.
  match goal with
  | |- context [forRange ?l ?b ?w0] =>
      edestruct (addImagePages_addable env (length (docs w)) l w0)
        as (w3 & d3 & H3 & Hd3 & He3);
      [ exact Hall
      | cbn [docs]; rewrite nth_error_app2, Nat.sub_diag by lia; reflexivity
      | reflexivity |]
  end.
  pose proof (addImagePages_keep _ _ _ _ _ _ H3) as [Hf3 Hs3].
  cbn [files stdout] in Hf3, Hs3.
  rewrite H3. unfold OutputFileAndClose. rewrite Hd3, He3, Hcreate.
  eexists. split; [reflexivity|]. cbn [files stdout]. now rewrite Hf3, Hs3.
Qed.

Lemma write_error_is_reported_witness :
  exists w',
    processImages
      {| os_ReadDir := fun _ => inl [];
         os_Getwd := inl (str "/x/y");
         os_Open := fun _ => None;
         image_DecodeConfig := fun _ => inl (100%Z, 200%Z);
         strings_ToUpper := fun s => s;
         gofpdf_registerImage := fun _ _ => None;
         os_Create := fun _ => Some (str "permission denied") |}
      [str "/x/y/photos/amt2.png"] (str "/x/y/photos/photos.pdf") initWorld
    = (Returned tt, w')
    /\ files w' = files initWorld
    /\ stdout w'
       = stdout initWorld ++ [str "Error writing pdf: " ++ str "permission denied"].
Proof.
  apply (write_error_is_reported _ [str "/x/y/photos/amt2.png"]
           (str "/x/y/photos/photos.pdf") initWorld (str "permission denied")).
  - discriminate.
  - repeat constructor; try (now eexists);
      (eexists; eexists; split; reflexivity).
  - reflexivity.
Defined.

(* ----------------------------------------------------------------- *)
(** ** The whole run *)

Lemma lsdir_world (env : Env) (dir : gostring) (exts : list gostring)
  (w w' : World) (o : Outcome (list gostring)) :
  lsdir env dir exts w = (o, w') -> w' = w.
Proof.
  unfold lsdir. destruct (os_ReadDir env dir) as [entries|err];
    [|now intros [= _ <-]].
  destruct o as [paths|p]; intro H.
  - now apply mapOrPanic_returned in H.
  - now apply mapOrPanic_panicked in H.
Qed.


(** The output path, from the elements of the directory's path. *)
Lemma getOutFilename_rooted (env : Env) (basepath : gostring)
  (elems : list gostring) (w : World) :
  Forall (fun e => properElem e = true) elems ->
  filepath_Abs env basepath = inl (rootedPath elems) ->
  getOutFilename env basepath w
  = (Returned (rootedPath (elems ++ [lastElem elems ++ str ".pdf"])), w).
Proof.
  intros He Habs. unfold getOutFilename. rewrite Habs.
  assert (Hcase : elems = [] \/ elems <> [])
    by (destruct elems; [left | right]; congruence).
  destruct Hcase as [->|Hne]; [reflexivity|].
  rewrite (filepath_Base_rooted elems He Hne).
  assert (Hlast : properElem (lastElem elems ++ str ".pdf") = true).
  { apply properElem_pdf, properElem_noSlash.
    rewrite Forall_forall in He. apply He.
    destruct (exists_last Hne) as (init & e & ->).
    unfold lastElem. rewrite last_last. apply in_or_app. right. now left. }
  unfold ret. do 2 f_equal. exact (filepath_Join_rooted elems _ He Hlast).
Qed.



Lemma rootedPath_last (init : list gostring) (e : gostring) :
  exists q, rootedPath (init ++ [e]) = q ++ ch_slash :: e.
Proof.
  unfold rootedPath. destruct init as [|i init].
  - now exists [].
  - rewrite strings_Join_snoc by discriminate.
    exists (ch_slash :: strings_Join (i :: init) [ch_slash]). reflexivity.
Qed.

(** The path of an entry whose name has no dot has no extension. *)
Lemma path_Ext_no_dot (elems : list gostring) (name : gostring) :
  noSlash name = true -> noDot name = true ->
  path_Ext (rootedPath (elems ++ [name])) = [].
Proof.
  intros Hs Hd. destruct (rootedPath_last elems name) as [q ->].
  unfold path_Ext. rewrite rev_app_distr. cbn [rev].
  rewrite <- app_assoc. cbn [app].
  rewrite extScan_skip by assumption. reflexivity.
Qed.

(** X14: a selected entry whose name has no dot makes the whole run
    panic, with no file written: the scanner selects it by its undotted
    suffix, and [addImagePage] finds no extension on its path. *)
Theorem dotless_name_aborts_run :
  forall (env : Env) (prog dir : gostring) (rest : list gostring)
    (entries : list FileInfo) (name : gostring) (w : World),
    rootedWd env -> properEntries env ->
    os_ReadDir env dir = inl entries ->
    In name (selectFiles entries imageFormats) -> noDot name = true ->
    exists p w',
      main env (prog :: dir :: rest) w = (Panicked p, w')
      /\ files w' = files w.
Proof.
  intros env prog dir rest entries name w Hwd Hent Hdir Hin Hdot.
  unfold main, bind.
  destruct (lsdir env dir imageFormats w) as [[paths|q] w1] eqn:H1;
    [|apply lsdir_world in H1 as ->; now exists q, w].
  destruct (lsdir_returned env dir imageFormats w w1 paths Hwd Hent H1)
    as (-> & entries' & Hdir' & Hcases).
  rewrite Hdir in Hdir'. injection Hdir' as <-.
  destruct Hcases as [[Hsel _]|(elems & He & Habs & ->)];
    [rewrite Hsel in Hin; destruct Hin|].
  rewrite (getOutFilename_rooted env dir elems w He Habs).
  apply processImages_unusable with (path := rootedPath (elems ++ [name])).
  - apply (in_map (fun n => rootedPath (elems ++ [n]))).
    apply (Permutation_in _ (sortSlice_perm _ lessByName _)). exact Hin.
  - right. right. apply path_Ext_no_dot; [|exact Hdot].
    apply properElem_noSlash.
    apply selectFiles_names in Hin as (elem & Hel & <-).
    pose proof (Hent dir entries Hdir) as Hall.
    rewrite Forall_forall in Hall. now apply Hall.
Qed.

Lemma dotless_name_aborts_run_witness :
  exists p w',
    main (demoEnv [regularFile "a.png"; regularFile "mypng"])
      [str "imgdir2pdf"; str "photos"] initWorld = (Panicked p, w')
    /\ files w' = files initWorld.
Proof.
  apply (dotless_name_aborts_run
           (demoEnv [regularFile "a.png"; regularFile "mypng"])
           (str "imgdir2pdf") (str "photos") []
           [regularFile "a.png"; regularFile "mypng"] (str "mypng")).
  - intros wd [= <-]. reflexivity.
  - intros dir entries [= <-]. repeat constructor.
  - reflexivity.
  - right. now left.
  - reflexivity.
Defined.



(* ----------------------------------------------------------------- *)
(** ** The fitted size, over the reals *)

#[local] Open Scope R_scope.





#[local] Close Scope R_scope.
